(** * The envoy client (envoy.c): a shallow embedding and its properties

    The client asks the envoyd supervisor for the calling user's agent,
    exports the agent's endpoint, and dispatches one verb (add, list,
    clear, kill, unlock, print).  The embedding below follows envoy.c
    function by function.  Everything the process observes from outside
    (the supervisor's reply, the file system, the passwd database, the
    terminal, gpg-agent's answers) is collected in a [world] record;
    everything it changes (its environment, its open gpg-agent
    connections, the terminal, and the ordered trace of its visible
    actions) lives in a [state] threaded through a small monad whose
    outcomes are: return to the caller, process exit, or process image
    replaced by a successful exec. *)

From Stdlib Require Import ZArith String Ascii List DecimalString Lia.
From stdpp Require Import gmap strings list.

(** ** C-level constants *)

Definition EXIT_SUCCESS : Z := 0.
Definition EXIT_FAILURE : Z := 1.

(** The newline character of the C string literals. *)
Definition LF : string := String "010"%char EmptyString.

(** The terminating zero byte of a C string. *)
Definition NUL : ascii := "000"%char.

(** ** Data model *)

(** [enum action] of envoy.c, in declaration order. *)
Inductive action : Set :=
| ACTION_FISH_PRINT
| ACTION_SH_PRINT
| ACTION_NONE
| ACTION_FORCE_ADD
| ACTION_CLEAR
| ACTION_KILL
| ACTION_LIST
| ACTION_UNLOCK
| ACTION_INVALID.

(** Modelled from the spec: lib/envoy.h, which envoy.c includes, is not
    among the sources (common.h is an older header without the [type]
    field and without the Stopped/Started/Failed statuses).  The agent
    kinds are SshAgent, GpgAgent and Default; [LAST_AGENT] is the
    not-found sentinel of [lookup_agent]. *)
Inductive agent : Set :=
| AGENT_SSH_AGENT
| AGENT_GPG_AGENT
| AGENT_DEFAULT
| LAST_AGENT.

(** Modelled from the spec: the reply tag of lib/envoy.h, with the
    enumerator names that envoy.c switches on. *)
Inductive agent_status : Set :=
| ENVOY_STOPPED
| ENVOY_STARTED
| ENVOY_RUNNING
| ENVOY_FAILED
| ENVOY_BADUSER.

(** Modelled from the spec: the AgentReply record; envoy.c reads exactly
    these five fields.  The two paths are zero-terminated C strings. *)
Record agent_data_t : Set := {
  pid : Z;
  type : agent;
  status : agent_status;
  sock : string;
  gpg : string
}.

Global Instance action_eq_dec : EqDecision action.
Proof. solve_decision. Defined.
Global Instance agent_eq_dec : EqDecision agent.
Proof. solve_decision. Defined.
Global Instance agent_status_eq_dec : EqDecision agent_status.
Proof. solve_decision. Defined.

(** Signals the client sends. *)
Inductive signal : Set := SIGHUP | SIGTERM.

(** [struct passwd], restricted to the field that is read; a NULL
    [pw_dir] is [None]. *)
Record passwd : Set := { pw_dir : option string }.

(** A [struct gpg_t *]: NULL, or the identifier of a connection. *)
Definition gpg_handle : Set := option nat.

(** ** printf *)

(** The arguments of a printf call. *)
Inductive printf_arg : Set :=
| ArgS (s : string)
| ArgD (d : Z).

(** [%d] of a C int. *)
Definition decimal (d : Z) : string := NilZero.string_of_int (Z.to_int d).

(** The two conversions envoy.c uses, [%s] and [%d]; every other
    character of the format is copied. *)
Fixpoint format (fmt : string) (args : list printf_arg) : string :=
  match fmt with
  | EmptyString => EmptyString
  | String "%" (String "s" rest) =>
      match args with
      | ArgS s :: args' => s +:+ format rest args'
      | _ => format rest (tail args)
      end
  | String "%" (String "d" rest) =>
      match args with
      | ArgD d :: args' => decimal d +:+ format rest args'
      | _ => format rest (tail args)
      end
  | String c rest => String c (format rest args)
  end.

(** ** What the process can do and observe *)

(** The visible actions of the client, recorded in program order. *)
Inductive event : Set :=
| Stdout (s : string)
| Stderr (s : string)
| Warnx (msg : string)
| Errx (code : Z) (msg : string)
| Err (code : Z) (msg : string)
| Request (id : agent) (start : bool)
| Setenv (name value : string)
| GpgOpen (path : string) (h : gpg_handle)
| GpgUpdateTty (h : gpg_handle)
| GpgKeyinfo (h : gpg_handle)
| GpgPreset (h : gpg_handle) (fpr : string) (timeout : Z) (pass : string)
| GpgClose (h : gpg_handle)
| Kill (p : Z) (sig : signal)
| Execv (path : string) (argv : list string)
| Execlp (file : string) (argv : list string)
| Tcsetattr (echo_on : bool)
| Atexit.

(** The surroundings of one invocation.  The library functions of
    lib/envoy.h and lib/gpg-protocol.h are not among the sources; their
    results are taken from here. *)
Record world : Type := {
  program_invocation_short_name : string;
  ENVOY_VERSION : string;
  lookup_agent : string -> agent;
  envoy_agent : agent -> bool -> Z * agent_data_t;
  access_F_OK : string -> bool;
  getpwuid : option passwd;
  execv_succeeds : string -> list string -> bool;
  execlp_succeeds : string -> list string -> bool;
  gpg_connects : string -> bool;
  gpg_keyinfo_list : list string;
  gpg_preset_result : string -> Z -> string -> Z;
  tcgetattr_ok : bool;
  tcsetattr_ok : bool
}.

(** The mutable part of the process: the trace of its visible actions,
    its environment, the gpg-agent connections it holds open, the
    unread terminal input, the terminal's echo flag, the file-scope
    [old_termios] snapshot (its echo flag) and the number of times
    [term_cleanup] was registered with atexit. *)
Record state : Type := {
  trace : list event;
  environ : gmap string string;
  conns : gset nat;
  next_conn : nat;
  stdin : list ascii;
  echo : bool;
  old_termios : bool;
  hooks : nat
}.

Definition initial (env : gmap string string) (input : list ascii) : state :=
  {| trace := []; environ := env; conns := ∅; next_conn := 0;
     stdin := input; echo := true; old_termios := false; hooks := 0 |}.

Definition set_trace (t : list event) (s : state) : state :=
  {| trace := t; environ := environ s; conns := conns s;
     next_conn := next_conn s; stdin := stdin s; echo := echo s;
     old_termios := old_termios s; hooks := hooks s |}.

Definition set_environ (e : gmap string string) (s : state) : state :=
  {| trace := trace s; environ := e; conns := conns s;
     next_conn := next_conn s; stdin := stdin s; echo := echo s;
     old_termios := old_termios s; hooks := hooks s |}.

Definition set_conns (c : gset nat) (n : nat) (s : state) : state :=
  {| trace := trace s; environ := environ s; conns := c;
     next_conn := n; stdin := stdin s; echo := echo s;
     old_termios := old_termios s; hooks := hooks s |}.

Definition set_stdin (i : list ascii) (s : state) : state :=
  {| trace := trace s; environ := environ s; conns := conns s;
     next_conn := next_conn s; stdin := i; echo := echo s;
     old_termios := old_termios s; hooks := hooks s |}.

Definition set_echo (b : bool) (s : state) : state :=
  {| trace := trace s; environ := environ s; conns := conns s;
     next_conn := next_conn s; stdin := stdin s; echo := b;
     old_termios := old_termios s; hooks := hooks s |}.

Definition set_old_termios (b : bool) (s : state) : state :=
  {| trace := trace s; environ := environ s; conns := conns s;
     next_conn := next_conn s; stdin := stdin s; echo := echo s;
     old_termios := b; hooks := hooks s |}.

Definition set_hooks (n : nat) (s : state) : state :=
  {| trace := trace s; environ := environ s; conns := conns s;
     next_conn := next_conn s; stdin := stdin s; echo := echo s;
     old_termios := old_termios s; hooks := n |}.

(** ** The monad *)

(** How a piece of the program ends: it returns to its caller, the
    process exits, or a successful exec replaces the process image. *)
Inductive outcome (A : Type) : Type :=
| Ret (a : A)
| Exit (code : Z)
| Replaced (path : string) (argv : list string).
Arguments Ret {A} a.
Arguments Exit {A} code.
Arguments Replaced {A} path argv.

Definition M (A : Type) : Type := state -> outcome A * state.

Definition ret {A} (a : A) : M A := fun s => (Ret a, s).

Definition bind {A B} (m : M A) (f : A -> M B) : M B :=
  fun s =>
    match m s with
    | (Ret a, s') => f a s'
    | (Exit c, s') => (Exit c, s')
    | (Replaced p a, s') => (Replaced p a, s')
    end.

Declare Scope envoy_scope.
Delimit Scope envoy_scope with envoy.
Notation "'let*' x := m 'in' k" := (bind m (fun x => k))
  (at level 10, x binder, k at level 200) : envoy_scope.
Notation "m ;;; k" := (bind m (fun _ => k))
  (at level 100, right associativity) : envoy_scope.
Open Scope envoy_scope.
Open Scope Z_scope.

Definition get {A} (f : state -> A) : M A := fun s => (Ret (f s), s).

Definition modify (f : state -> state) : M unit := fun s => (Ret tt, f s).

Definition emit (e : event) : M unit :=
  modify (fun s => set_trace (trace s ++ [e]) s).

(** ** libc and the two missing libraries, as seen from envoy.c *)

Section Envoy.

Variable W : world.

Definition printf (fmt : string) (args : list printf_arg) : M unit :=
  emit (Stdout (format fmt args)).

Definition fputs_stdout (s : string) : M unit := emit (Stdout s).

(** [tcsetattr(fd, TCSAFLUSH, &t)], where only the ECHO flag of [t] is
    tracked. *)
Definition tcsetattr (echo_on : bool) : M Z :=
  emit (Tcsetattr echo_on) ;;;
  if tcsetattr_ok W then modify (set_echo echo_on) ;;; ret 0 else ret (-1).

(** [tcgetattr(fd, &old_termios)]. *)
Definition tcgetattr_old : M Z :=
  if tcgetattr_ok W
  then let* e := get echo in modify (set_old_termios e) ;;; ret 0
  else ret (-1).

Definition term_cleanup : M unit :=
  let* old := get old_termios in tcsetattr old ;;; ret tt.

Definition atexit_term_cleanup : M unit :=
  emit Atexit ;;; let* n := get hooks in modify (set_hooks (S n)).

(** The registered exit hooks, run by [exit] and by a return from
    [main]. *)
Fixpoint run_hooks (n : nat) : M unit :=
  match n with
  | O => ret tt
  | S n' => term_cleanup ;;; run_hooks n'
  end.

Definition exit {A} (code : Z) : M A := fun s =>
  (Exit code, snd (run_hooks (hooks s) s)).

(** [err], [errx] and [warnx] of <err.h>: a diagnostic on stderr
    ([err] appends the text of errno); the first two then exit. *)
Definition err {A} (code : Z) (msg : string) : M A :=
  emit (Err code msg) ;;; exit code.

Definition errx {A} (code : Z) (msg : string) : M A :=
  emit (Errx code msg) ;;; exit code.

Definition warnx (msg : string) : M unit := emit (Warnx msg).

(** One line of input: the bytes up to and including the first
    newline, or up to the end of the input. *)
Fixpoint read_line (input : list ascii) : list ascii * list ascii :=
  match input with
  | [] => ([], [])
  | c :: rest =>
      if decide (c = "010"%char) then ([c], rest)
      else let '(line, rest') := read_line rest in (c :: line, rest')
  end.

(** [getline(&buf, &len, stdin)]: the buffer holds the line and a
    terminating zero byte; the result is the number of bytes read, or
    -1 when the input is at its end. *)
Definition getline : M (list ascii * Z) := fun s =>
  match stdin s with
  | [] => (Ret ([], -1), s)
  | _ :: _ =>
      let '(line, rest) := read_line (stdin s) in
      (Ret (line ++ [NUL], Z.of_nat (length line)), set_stdin rest s)
  end.

(** The C string held in a buffer: the bytes before the first zero. *)
Fixpoint c_str (buf : list ascii) : string :=
  match buf with
  | [] => EmptyString
  | c :: rest => if decide (c = NUL) then EmptyString else String c (c_str rest)
  end.

Definition setenv (name value : string) : M unit :=
  emit (Setenv name value) ;;;
  modify (fun s => set_environ (<[name := value]> (environ s)) s).

Definition kill (p : Z) (sig : signal) : M unit := emit (Kill p sig).

(** [execv] and [execlp] return only on failure. *)
Definition execv (path : string) (argv : list string) : M Z :=
  emit (Execv path argv) ;;;
  if execv_succeeds W path argv then (fun s => (Replaced path argv, s))
  else ret (-1).

Definition execlp (file : string) (argv : list string) : M Z :=
  emit (Execlp file argv) ;;;
  if execlp_succeeds W file argv then (fun s => (Replaced file argv, s))
  else ret (-1).

(** Modelled from the spec: lib/gpg-protocol.h is missing.  A
    connection to the gpg-agent socket is opened per call and is NULL
    on failure; the calls on a connection are recorded in the trace;
    closing releases the connection.  The calls on a NULL connection
    are recorded and touch no connection. *)
Definition gpg_agent_connection (path : string) : M gpg_handle :=
  if gpg_connects W path
  then
    let* n := get next_conn in
    emit (GpgOpen path (Some n)) ;;;
    modify (fun s => set_conns ({[ n ]} ∪ conns s) (S n) s) ;;;
    ret (Some n)
  else emit (GpgOpen path None) ;;; ret None.

Definition gpg_update_tty (agent : gpg_handle) : M unit :=
  emit (GpgUpdateTty agent).

Definition gpg_keyinfo (agent : gpg_handle) : M (list string) :=
  emit (GpgKeyinfo agent) ;;; ret (gpg_keyinfo_list W).

Definition gpg_preset_passphrase (agent : gpg_handle) (fingerprint : string)
    (timeout : Z) (password : string) : M Z :=
  emit (GpgPreset agent fingerprint timeout password) ;;;
  ret (gpg_preset_result W fingerprint timeout password).

Definition gpg_close (agent : gpg_handle) : M unit :=
  emit (GpgClose agent) ;;;
  match agent with
  | Some n => modify (fun s => set_conns (conns s ∖ {[ n ]}) (next_conn s) s)
  | None => ret tt
  end.

(** ** envoy.c *)

(** [read_password]: the resulting [*password] buffer and the returned
    length. *)
Definition read_password : M (list ascii * Z) :=
  fputs_stdout "Password: " ;;;
  let* r := tcgetattr_old in
  (if r <? 0 then err EXIT_FAILURE "failed to get terminal attributes"
   else ret tt) ;;;
  atexit_term_cleanup ;;;
  let* r := tcsetattr false in
  (if r <? 0 then err EXIT_FAILURE "failed to set terminal attributes"
   else ret tt) ;;;
  let* '(password, nbytes_r) := getline in
  (if nbytes_r <? 0 then errx EXIT_FAILURE "failed to read password"
   else ret tt) ;;;
  let nbytes_r := nbytes_r - 1 in
  let password := <[Z.to_nat nbytes_r := NUL]> password in
  let* old := get old_termios in
  tcsetattr old ;;;
  fputs_stdout LF ;;;
  ret (password, nbytes_r).

Definition get_agent (id : agent) (start : bool) : M (Z * agent_data_t) :=
  emit (Request id start) ;;;
  let '(r, data) := envoy_agent W id start in
  (if r <? 0 then err EXIT_FAILURE "failed to fetch agent" else ret tt) ;;;
  match status data with
  | ENVOY_STOPPED | ENVOY_STARTED | ENVOY_RUNNING => ret tt
  | ENVOY_FAILED =>
      errx EXIT_FAILURE "agent failed to start, check envoyd's log"
  | ENVOY_BADUSER =>
      errx EXIT_FAILURE
        "connection rejected, user is unauthorized to use this agent"
  end ;;;
  ret (r, data).

Definition get_key_path (home fragment : string) : string :=
  if access_F_OK W fragment then fragment
  else format "%s/.ssh/%s" [ArgS home; ArgS fragment].

Definition add_keys {A} (keys : list string) : M A :=
  match getpwuid W with
  | Some {| pw_dir := Some home |} =>
      let args := "/usr/bin/ssh-add" :: "--" :: map (get_key_path home) keys in
      execv "/usr/bin/ssh-add" args ;;;
      err EXIT_FAILURE "failed to launch ssh-add"
  | _ => err EXIT_FAILURE "failed to lookup passwd entry"
  end.

Definition print_sh_env (data : agent_data_t) : M unit :=
  (if decide (type data = AGENT_GPG_AGENT)
   then printf ("export GPG_AGENT_INFO='%s'" +:+ LF) [ArgS (gpg data)]
   else ret tt) ;;;
  printf ("export SSH_AUTH_SOCK='%s'" +:+ LF) [ArgS (sock data)] ;;;
  printf ("export SSH_AGENT_PID='%d'" +:+ LF) [ArgD (pid data)].

Definition print_fish_env (data : agent_data_t) : M unit :=
  (if decide (type data = AGENT_GPG_AGENT)
   then printf "set -x GPG_AGENT_INFO '%s';" [ArgS (gpg data)]
   else ret tt) ;;;
  printf "set -x SSH_AUTH_SOCK '%s';" [ArgS (sock data)] ;;;
  printf "set -x SSH_AGENT_PID '%d';" [ArgD (pid data)].

Definition source_env (data : agent_data_t) : M unit :=
  (if decide (type data = AGENT_GPG_AGENT)
   then
     let* agent := gpg_agent_connection (gpg data) in
     gpg_update_tty agent ;;;
     gpg_close agent
   else ret tt) ;;;
  setenv "SSH_AUTH_SOCK" (sock data).

(** The [for] loop of [unlock]: [Some v] is a [return v] from inside the
    loop, [None] is the loop running to its end. *)
Fixpoint unlock_loop (agent : gpg_handle) (password : string)
    (fgpt : list string) : M (option Z) :=
  match fgpt with
  | [] => ret None
  | fingerprint :: next =>
      let* r := gpg_preset_passphrase agent fingerprint (-1) password in
      if r <? 0
      then
        warnx (format "failed to unlock key '%s'" [ArgS fingerprint]) ;;;
        ret (Some 1)
      else unlock_loop agent password next
  end.

Definition unlock (data : agent_data_t) (password : option string) : M Z :=
  let* agent := gpg_agent_connection (gpg data) in
  (if agent is None
   then err EXIT_FAILURE "failed to open connection to gpg-agent"
   else ret tt) ;;;
  let* password :=
    match password with
    | Some p => ret p
    | None => let* '(buf, _) := read_password in ret (c_str buf)
    end in
  let* fgpt := gpg_keyinfo agent in
  let* r := unlock_loop agent password fgpt in
  match r with
  | Some v => ret v
  | None => gpg_close agent ;;; ret 0
  end.

Definition usage_options : string :=
  "Options:" +:+ LF +:+
  " -h, --help            display this help" +:+ LF +:+
  " -v, --version         display version" +:+ LF +:+
  " -a, --add             add private key identities" +:+ LF +:+
  " -k, --clear           force identities to expire (gpg-agent only)" +:+ LF +:+
  " -K, --kill            kill the running agent" +:+ LF +:+
  " -l, --list            list fingerprints of all loaded identities" +:+ LF +:+
  " -u, --unlock=[PASS]   unlock the agent's keyring (gpg-agent only)" +:+ LF +:+
  " -p, --print           print out sh environmental arguments" +:+ LF +:+
  " -f, --fish            print out fish environmental arguments" +:+ LF +:+
  " -t, --agent=AGENT     set the prefered to start" +:+ LF.

(** [usage(out)]: [to_stderr] tells whether [out == stderr]. *)
Definition usage {A} (to_stderr : bool) : M A :=
  let out := if to_stderr then Stderr else Stdout in
  emit (out (format ("usage: %s [options] [key ...]" +:+ LF)
               [ArgS (program_invocation_short_name W)])) ;;;
  emit (out usage_options) ;;;
  exit (if to_stderr then EXIT_FAILURE else EXIT_SUCCESS).

(** What one call of [getopt_long] hands to the [switch]: the option
    found, with [optarg] where the option takes one ([-u] optionally,
    [-t] always); [opt_unknown] is the [default] branch. *)
Inductive option_t : Set :=
| opt_h
| opt_v
| opt_a
| opt_k
| opt_K
| opt_l
| opt_u (optarg : option string)
| opt_p
| opt_f
| opt_t (optarg : string)
| opt_unknown.

(** The locals of [main] that the option loop assigns. *)
Record locals : Set := {
  l_source : bool;
  l_password : option string;
  l_verb : action;
  l_type : agent
}.

Definition main_locals : locals :=
  {| l_source := true; l_password := None; l_verb := ACTION_NONE;
     l_type := AGENT_DEFAULT |}.

Definition set_verb (v : action) (l : locals) : locals :=
  {| l_source := l_source l; l_password := l_password l; l_verb := v;
     l_type := l_type l |}.

Definition set_source (b : bool) (l : locals) : locals :=
  {| l_source := b; l_password := l_password l; l_verb := l_verb l;
     l_type := l_type l |}.

Definition set_password (p : option string) (l : locals) : locals :=
  {| l_source := l_source l; l_password := p; l_verb := l_verb l;
     l_type := l_type l |}.

Definition set_type (t : agent) (l : locals) : locals :=
  {| l_source := l_source l; l_password := l_password l; l_verb := l_verb l;
     l_type := t |}.

(** The [while (true)] loop around [getopt_long]: [inl c] is the
    [return c] of the [-v] branch, [inr l] the [break] at the end of the
    options. *)
Fixpoint getopt_loop (opts : list option_t) (l : locals) : M (Z + locals) :=
  match opts with
  | [] => ret (inr l)
  | opt :: rest =>
      match opt with
      | opt_h => usage false
      | opt_v =>
          printf ("%s %s" +:+ LF)
            [ArgS (program_invocation_short_name W); ArgS (ENVOY_VERSION W)] ;;;
          ret (inl 0)
      | opt_a => getopt_loop rest (set_verb ACTION_FORCE_ADD l)
      | opt_k => getopt_loop rest (set_source false (set_verb ACTION_CLEAR l))
      | opt_K => getopt_loop rest (set_source false (set_verb ACTION_KILL l))
      | opt_l => getopt_loop rest (set_verb ACTION_LIST l)
      | opt_u optarg =>
          getopt_loop rest (set_password optarg (set_verb ACTION_UNLOCK l))
      | opt_p => getopt_loop rest (set_verb ACTION_SH_PRINT l)
      | opt_f => getopt_loop rest (set_verb ACTION_FISH_PRINT l)
      | opt_t optarg =>
          let t := lookup_agent W optarg in
          if decide (t = LAST_AGENT)
          then errx EXIT_FAILURE (format "unknown agent: %s" [ArgS optarg])
          else getopt_loop rest (set_type t l)
      | opt_unknown => usage true
      end
  end.

(** The [switch (verb)] at the end of [main]. *)
Definition dispatch (l : locals) (data : agent_data_t) (keys : list string)
    : M unit :=
  match l_verb l with
  | ACTION_NONE =>
      if bool_decide (status data = ENVOY_RUNNING)
         || bool_decide (type data = AGENT_GPG_AGENT)
      then ret tt
      else add_keys keys
  | ACTION_FORCE_ADD => add_keys keys
  | ACTION_CLEAR =>
      if decide (type data = AGENT_GPG_AGENT)
      then kill (pid data) SIGHUP
      else errx EXIT_FAILURE "only gpg-agent supports this operation"
  | ACTION_KILL => kill (pid data) SIGTERM
  | ACTION_LIST =>
      execlp "ssh-add" ["ssh-add"; "-l"] ;;;
      err EXIT_FAILURE "failed to launch ssh-add"
  | ACTION_UNLOCK => unlock data (l_password l) ;;; ret tt
  | _ => ret tt
  end.

(** [main] once [get_agent] has returned [r] and filled [data]. *)
Definition main_after_agent (l : locals) (keys : list string) (r : Z)
    (data : agent_data_t) : M Z :=
  (if r <? 0
   then errx EXIT_FAILURE "recieved no data, did the agent fail to start?"
   else ret tt) ;;;
  if decide (status data = ENVOY_STOPPED) then ret 0
  else
    (if l_source l then source_env data else ret tt) ;;;
    (if decide (l_verb l = ACTION_SH_PRINT) then print_sh_env data
     else if decide (l_verb l = ACTION_FISH_PRINT) then print_fish_env data
     else ret tt) ;;;
    dispatch l data keys ;;;
    ret 0.

(** [main] after the option loop, from the call of [get_agent] on. *)
Definition main_body (l : locals) (keys : list string) : M Z :=
  let* '(r, data) := get_agent (l_type l) (l_source l) in
  main_after_agent l keys r data.

(** [main]: [opts] is the sequence of options [getopt_long] finds and
    [keys] the remaining arguments, [&argv[optind]]. *)
Definition main (opts : list option_t) (keys : list string) : M Z :=
  let* r := getopt_loop opts main_locals in
  match r with
  | inl code => ret code
  | inr l => main_body l keys
  end.

(** How the process ends. *)
Inductive result : Set :=
| Exited (code : Z)
| Execed (path : string) (argv : list string).

(** One run of the client from [main] to the end of the process: a
    return from [main] is an [exit] with the returned status, which
    runs the exit hooks. *)
Definition run (opts : list option_t) (keys : list string) (s : state)
    : result * state :=
  match main opts keys s with
  | (Ret code, s') => (Exited code, snd (run_hooks (hooks s') s'))
  | (Exit code, s') => (Exited code, s')
  | (Replaced path argv, s') => (Execed path argv, s')
  end.

End Envoy.

(** ** The shell exporter as the specification words it *)

(** The variables to export, in the order GPG_AGENT_INFO (gpg-agent
    only), SSH_AUTH_SOCK, SSH_AGENT_PID, each with its value. *)
Definition exported (data : agent_data_t) : list (string * string) :=
  (if decide (type data = AGENT_GPG_AGENT)
   then [("GPG_AGENT_INFO", gpg data)] else []) ++
  [("SSH_AUTH_SOCK", sock data); ("SSH_AGENT_PID", decimal (pid data))].

(** [export NAME='value'] and a newline. *)
Definition sh_line (nv : string * string) : string :=
  "export " +:+ nv.1 +:+ "='" +:+ nv.2 +:+ "'" +:+ LF.

(** [set -x NAME 'value';] *)
Definition fish_line (nv : string * string) : string :=
  "set -x " +:+ nv.1 +:+ " '" +:+ nv.2 +:+ "';".

(** The text a trace puts on stdout. *)
Fixpoint stdout_of (t : list event) : string :=
  match t with
  | [] => EmptyString
  | Stdout s :: t' => s +:+ stdout_of t'
  | _ :: t' => stdout_of t'
  end.


(** ** The key-path resolver as the specification words it *)

(** A key argument that exists as a path is used unchanged; any other
    becomes [<pw_dir>/.ssh/<k>]. *)
Definition resolved_key (W : world) (home k : string) : string :=
  if access_F_OK W k then k else home +:+ "/.ssh/" +:+ k.

Definition ssh_add_argv (W : world) (home : string) (keys : list string)
    : list string :=
  ["/usr/bin/ssh-add"; "--"] ++ map (resolved_key W home) keys.

(** ** Two relations between the states before and after a step *)

(** The trace only grows: what was done stays done. *)
Definition trace_grows (s s' : state) : Prop :=
  exists t, trace s' = trace s ++ t.

(** The environment of the process is unchanged. *)
Definition same_environ (s s' : state) : Prop := environ s' = environ s.

(** A computation respects a relation when the relation holds between
    the state it starts in and the state it ends in, however it ends. *)
Definition respects (R : state -> state -> Prop) {A} (m : M A) : Prop :=
  forall s, R s (snd (m s)).

(** ** The driver up to the switch on the verb *)

(** What [source_env] does for a reply, [n] being the identifier the
    next connection gets. *)
Definition source_events (W : world) (data : agent_data_t) (n : nat)
    : list event :=
  (if decide (type data = AGENT_GPG_AGENT)
   then
     let h := if gpg_connects W (gpg data) then Some n else None in
     [GpgOpen (gpg data) h; GpgUpdateTty h; GpgClose h]
   else []) ++
  [Setenv "SSH_AUTH_SOCK" (sock data)].

(** The shell-print step. *)
Definition print_events (verb : action) (data : agent_data_t) : list event :=
  match verb with
  | ACTION_SH_PRINT => map (fun nv => Stdout (sh_line nv)) (exported data)
  | ACTION_FISH_PRINT => map (fun nv => Stdout (fish_line nv)) (exported data)
  | _ => []
  end.

(** Request, sourcing of the environment when [start] is set, and the
    shell-print step: what a run on a live agent does before the
    switch. *)
Definition prelude_events (W : world) (l : locals) (data : agent_data_t)
    : list event :=
  [Request (l_type l) (l_source l)] ++
  (if l_source l then source_events W data 0 else []) ++
  print_events (l_verb l) data.

(** ** The unlock flow *)

(** gpg-agent accepts the passphrase [pass] for the key [fpr]. *)
Definition preset_ok (W : world) (pass fpr : string) : Prop :=
  0 <= gpg_preset_result W fpr (-1) pass.

(** The warning of a failed preset. *)
Definition unlock_warning (fpr : string) : event :=
  Warnx ("failed to unlock key '" +:+ fpr +:+ "'").

(** ** Concrete surroundings *)

(** The registry of agent names. *)
Definition registry (name : string) : agent :=
  if decide (name = "ssh-agent") then AGENT_SSH_AGENT
  else if decide (name = "gpg-agent") then AGENT_GPG_AGENT
  else LAST_AGENT.

Definition ssh_reply (st : agent_status) : agent_data_t :=
  {| pid := 4321; type := AGENT_SSH_AGENT; status := st;
     sock := "/run/user/1000/ssh-XXXX/agent.4320"; gpg := EmptyString |}.

Definition gpg_reply (st : agent_status) : agent_data_t :=
  {| pid := 9000; type := AGENT_GPG_AGENT; status := st;
     sock := "/run/user/1000/gnupg/S.gpg-agent.ssh";
     gpg := "/run/user/1000/gnupg/S.gpg-agent:1234:1" |}.

(** User alice on a host where the supervisor answers [reply], the
    file id_rsa exists in the working directory, gpg-agent is reachable
    at the paths [connects] accepts, holds the keys AAAA and BBBB, and
    refuses the passphrase for the keys in [refused]. *)
Definition alice (reply : agent_data_t) (connects : string -> bool)
    (refused : list string) : world :=
  {| program_invocation_short_name := "envoy";
     ENVOY_VERSION := "v7";
     lookup_agent := registry;
     envoy_agent := fun _ _ => (0, reply);
     access_F_OK := fun k => bool_decide (k = "id_rsa");
     getpwuid := Some {| pw_dir := Some "/home/alice" |};
     execv_succeeds := fun _ _ => true;
     execlp_succeeds := fun _ _ => true;
     gpg_connects := connects;
     gpg_keyinfo_list := ["AAAA"; "BBBB"];
     gpg_preset_result :=
       fun fpr _ _ => if bool_decide (fpr ∈ refused) then -1 else 0;
     tcgetattr_ok := true;
     tcsetattr_ok := true |}.

(** gpg-agent listens wherever asked; gpg-agent listens only at a
    non-empty path. *)
Definition anywhere (path : string) : bool := true.
Definition nonempty_path (path : string) : bool :=
  negb (bool_decide (path = EmptyString)).

(** A process started with an empty environment and no terminal input. *)
Definition fresh : state := initial ∅ [].

(** ** The option loop, option by option *)

(** The options after which the loop goes on to the next one: all but
    [-h], [-v], an unknown option, and [-t] with a name that
    [lookup_agent] does not know. *)
Definition continues (W : world) (o : option_t) : bool :=
  match o with
  | opt_h | opt_v | opt_unknown => false
  | opt_t optarg => negb (bool_decide (lookup_agent W optarg = LAST_AGENT))
  | _ => true
  end.

(** The verb an option selects, if it selects one. *)
Definition verb_of (o : option_t) : option action :=
  match o with
  | opt_a => Some ACTION_FORCE_ADD
  | opt_k => Some ACTION_CLEAR
  | opt_K => Some ACTION_KILL
  | opt_l => Some ACTION_LIST
  | opt_u _ => Some ACTION_UNLOCK
  | opt_p => Some ACTION_SH_PRINT
  | opt_f => Some ACTION_FISH_PRINT
  | _ => None
  end.

(** The first line of the usage text. *)
Definition usage_line (W : world) : string :=
  "usage: " +:+ program_invocation_short_name W +:+ " [options] [key ...]"
    +:+ LF.

(** ** More relations between the states before and after a step *)

(** No gpg-agent connection is left open that was not open before. *)
Definition none_left_open (s s' : state) : Prop :=
  conns s = ∅ -> conns s' = ∅.

(** Sourced reply: the environment with SSH_AUTH_SOCK set to the
    socket of the reply. *)
Definition sourced (data : agent_data_t) (env : gmap string string)
    : gmap string string :=
  <["SSH_AUTH_SOCK" := sock data]> env.

(** The events of a passphrase prompt on a working terminal whose echo
    flag was [e]. *)
Definition prompt_events (e : bool) : list event :=
  [Stdout "Password: "; Atexit; Tcsetattr false; Tcsetattr e; Stdout LF].

(** ** More concrete surroundings *)

(** Like [alice], on a host where [envoy_agent] returns [r], every
    exec succeeds or fails as [exec_ok] says, and the terminal
    attributes can be read and set as [tc_get] and [tc_set] say. *)
Definition host (r : Z) (reply : agent_data_t) (connects : string -> bool)
    (refused : list string) (exec_ok tc_get tc_set : bool) : world :=
  {| program_invocation_short_name := "envoy";
     ENVOY_VERSION := "v7";
     lookup_agent := registry;
     envoy_agent := fun _ _ => (r, reply);
     access_F_OK := fun k => bool_decide (k = "id_rsa");
     getpwuid := Some {| pw_dir := Some "/home/alice" |};
     execv_succeeds := fun _ _ => exec_ok;
     execlp_succeeds := fun _ _ => exec_ok;
     gpg_connects := connects;
     gpg_keyinfo_list := ["AAAA"; "BBBB"];
     gpg_preset_result :=
       fun fpr _ _ => if bool_decide (fpr ∈ refused) then -1 else 0;
     tcgetattr_ok := tc_get;
     tcsetattr_ok := tc_set |}.

(** gpg-agent listens nowhere. *)
Definition nowhere (path : string) : bool := false.

(** * Properties *)

(** ** Shell exporter *)

Lemma print_sh_env_run (data : agent_data_t) (s : state) :
  print_sh_env data s
  = (Ret tt, set_trace (trace s ++ map (fun nv => Stdout (sh_line nv))
                                      (exported data)) s).
Proof.
  unfold print_sh_env, exported, printf, emit, modify, bind.
  destruct (decide (type data = AGENT_GPG_AGENT)) as [Hgpg|Hgpg]; cbn;
    rewrite <- ?app_assoc; reflexivity.
Qed.

Lemma print_fish_env_run (data : agent_data_t) (s : state) :
  print_fish_env data s
  = (Ret tt, set_trace (trace s ++ map (fun nv => Stdout (fish_line nv))
                                      (exported data)) s).
Proof.
  unfold print_fish_env, exported, printf, emit, modify, bind.
  destruct (decide (type data = AGENT_GPG_AGENT)) as [Hgpg|Hgpg]; cbn;
    rewrite <- ?app_assoc; reflexivity.
Qed.

(** C9: for every reply, [print_sh_env] writes one [export NAME='value']
    line per variable, and [print_fish_env] one [set -x NAME 'value';]
    per variable, for the variables GPG_AGENT_INFO (only for a
    gpg-agent reply), SSH_AUTH_SOCK, SSH_AGENT_PID in this order; the
    value stands between the single quotes as it is, unescaped. *)
Theorem print_env_lines (data : agent_data_t) (s : state) :
  print_sh_env data s
    = (Ret tt, set_trace (trace s ++ map (fun nv => Stdout (sh_line nv))
                                        (exported data)) s)
  /\ print_fish_env data s
    = (Ret tt, set_trace (trace s ++ map (fun nv => Stdout (fish_line nv))
                                        (exported data)) s).
Proof. split; [apply print_sh_env_run | apply print_fish_env_run]. Qed.

(** ** Stepping through the monad *)

(** Run the primitives of the monad on the current state. *)
Ltac run_monad := unfold bind, emit, modify, get, ret; cbn.

(** The test [x < 0] of a C return value that is known not to be
    negative. *)
Ltac not_negative x H :=
  let Hlt := fresh "Hlt" in
  assert (Hlt : (x <? 0) = false) by (apply Z.ltb_ge; exact H).

Lemma bind_Ret {A B} (m : M A) (f : A -> M B) (s s' : state) (a : A) :
  m s = (Ret a, s') -> bind m f s = f a s'.
Proof. intros H. unfold bind. rewrite H. reflexivity. Qed.

Lemma bind_Exit {A B} (m : M A) (f : A -> M B) (s s' : state) (c : Z) :
  m s = (Exit c, s') -> bind m f s = (Exit c, s').
Proof. intros H. unfold bind. rewrite H. reflexivity. Qed.

Lemma bind_Replaced {A B} (m : M A) (f : A -> M B) (s s' : state) p a :
  m s = (Replaced p a, s') -> bind m f s = (Replaced p a, s').
Proof. intros H. unfold bind. rewrite H. reflexivity. Qed.

Lemma exit_no_hooks {A} (W : world) (code : Z) (s : state) :
  hooks s = O -> @exit W A code s = (Exit code, s).
Proof. intros H. unfold exit. rewrite H. reflexivity. Qed.

Lemma bind_assoc {A B C} (m : M A) (f : A -> M B) (g : B -> M C) (s : state) :
  bind (bind m f) g s = bind m (fun a => bind (f a) g) s.
Proof. unfold bind. destruct (m s) as [[a|c|p a] s']; reflexivity. Qed.

Lemma bind_emit {B} (e : event) (f : unit -> M B) (s : state) :
  bind (emit e) f s = f tt (set_trace (trace s ++ [e]) s).
Proof. reflexivity. Qed.

(** ** Key-path resolver *)

Lemma append_empty_r (k : string) : k +:+ EmptyString = k.
Proof.
  induction k as [|c k IH]; [reflexivity|].
  change (String c (k +:+ EmptyString) = String c k). f_equal. exact IH.
Qed.

Lemma format_key_path (home k : string) :
  format "%s/.ssh/%s" [ArgS home; ArgS k] = home +:+ "/.ssh/" +:+ k.
Proof. cbn. rewrite append_empty_r. reflexivity. Qed.

Lemma get_key_path_resolved (W : world) (home k : string) :
  get_key_path W home k = resolved_key W home k.
Proof.
  unfold get_key_path, resolved_key.
  destruct (access_F_OK W k); [reflexivity | apply format_key_path].
Qed.

Lemma add_keys_execs {A} (W : world) (keys : list string) (home : string)
    (s : state) :
  getpwuid W = Some {| pw_dir := Some home |} ->
  execv_succeeds W "/usr/bin/ssh-add" (ssh_add_argv W home keys) = true ->
  @add_keys W A keys s
  = (Replaced "/usr/bin/ssh-add" (ssh_add_argv W home keys),
     set_trace
       (trace s ++ [Execv "/usr/bin/ssh-add" (ssh_add_argv W home keys)]) s).
Proof.
  intros Hpw Hexec. unfold add_keys. rewrite Hpw.
  assert (Hmap : map (get_key_path W home) keys
                 = map (resolved_key W home) keys).
  { apply map_ext. intros k. apply get_key_path_resolved. }
  rewrite Hmap. unfold ssh_add_argv in *. simpl app in *.
  unfold execv, bind, emit, modify. simpl. rewrite Hexec. reflexivity.
Qed.

(** C8: a key argument for which [access(k, F_OK)] succeeds is passed
    unchanged and any other as [<pw_dir>/.ssh/<k>], with [pw_dir] from
    the passwd entry of the caller; with the verb ForceAdd the switch
    of [main] calls [add_keys] on the remaining arguments, whose one
    action is then [execv] of /usr/bin/ssh-add with the arguments
    [/usr/bin/ssh-add], [--] and the resolved keys in order, which
    replaces the process when it succeeds; when the passwd lookup
    fails [add_keys] is fatal and execs nothing. *)
Theorem add_keys_resolves (W : world) (keys : list string) (s : state) :
  hooks s = O ->
  (forall home k,
      get_key_path W home k
      = if access_F_OK W k then k else home +:+ "/.ssh/" +:+ k)
  /\ (forall l data,
      l_verb l = ACTION_FORCE_ADD ->
      dispatch W l data keys = add_keys W keys)
  /\ (forall home,
      getpwuid W = Some {| pw_dir := Some home |} ->
      execv_succeeds W "/usr/bin/ssh-add"
        (["/usr/bin/ssh-add"; "--"] ++ map (resolved_key W home) keys) = true ->
      @add_keys W Z keys s
      = (Replaced "/usr/bin/ssh-add"
           (["/usr/bin/ssh-add"; "--"] ++ map (resolved_key W home) keys),
         set_trace
           (trace s ++
              [Execv "/usr/bin/ssh-add"
                 (["/usr/bin/ssh-add"; "--"]
                    ++ map (resolved_key W home) keys)])
           s))
  /\ (getpwuid W = None \/ getpwuid W = Some {| pw_dir := None |} ->
      @add_keys W Z keys s
      = (Exit EXIT_FAILURE,
         set_trace
           (trace s ++ [Err EXIT_FAILURE "failed to lookup passwd entry"]) s)).
Proof.
  intros Hh. split; [|split; [|split]].
  - intros home k. apply get_key_path_resolved.
  - intros l data Hv. unfold dispatch. rewrite Hv. reflexivity.
  - intros home Hpw Hexec. apply add_keys_execs; assumption.
  - intros Hpw. unfold add_keys, err, bind, emit, modify.
    destruct Hpw as [-> | ->]; cbn; rewrite (exit_no_hooks W); auto.
Qed.

(** ** Relations that every step of the program respects *)

(** A relation between the state before and after a computation, which
    holds across every primitive that leaves the environment alone.
    Instantiated below with "the trace only grows" and with "the
    environment is unchanged". *)
Create HintDb respects.

Section Respects.

Variable W : world.
Variable R : state -> state -> Prop.

Hypothesis R_refl : forall s, R s s.
Hypothesis R_trans : forall a b c, R a b -> R b c -> R a c.
Hypothesis R_emit : forall s e, R s (set_trace (trace s ++ [e]) s).
Hypothesis R_conns : forall s c n, R s (set_conns c n s).
Hypothesis R_stdin : forall s i, R s (set_stdin i s).
Hypothesis R_echo : forall s b, R s (set_echo b s).
Hypothesis R_old_termios : forall s b, R s (set_old_termios b s).
Hypothesis R_hooks : forall s n, R s (set_hooks n s).

Lemma respects_ret {A} (a : A) : respects R (ret a).
Proof. intros s. apply R_refl. Qed.

Lemma respects_bind {A B} (m : M A) (f : A -> M B) :
  respects R m -> (forall a, respects R (f a)) -> respects R (bind m f).
Proof.
  intros Hm Hf s. unfold bind. specialize (Hm s).
  destruct (m s) as [[a|c|p a] s']; cbn in *; [|exact Hm|exact Hm].
  eapply R_trans; [exact Hm | apply Hf].
Qed.

Lemma respects_get {A} (f : state -> A) : respects R (get f).
Proof. intros s. apply R_refl. Qed.

Lemma respects_emit (e : event) : respects R (emit e).
Proof. intros s. apply R_emit. Qed.

Lemma respects_if {A} (b : bool) (m1 m2 : M A) :
  respects R m1 -> respects R m2 -> respects R (if b then m1 else m2).
Proof. destruct b; auto. Qed.

Lemma respects_decide {A} (P : Prop) `{Decision P} (m1 m2 : M A) :
  respects R m1 -> respects R m2 -> respects R (if decide P then m1 else m2).
Proof. destruct (decide P); auto. Qed.

Local Hint Resolve respects_ret respects_get respects_emit : respects.
Local Hint Extern 2 (respects R (bind _ _)) =>
  apply respects_bind; [|intros ?] : respects.
Local Hint Extern 2 (respects R (if decide _ then _ else _)) =>
  apply respects_decide : respects.
Local Hint Extern 3 (respects R (if _ then _ else _)) =>
  apply respects_if : respects.
Local Hint Extern 1 (respects R (modify _)) =>
  intros ?; cbn; auto : respects.

Lemma respects_tcsetattr b : respects R (tcsetattr W b).
Proof. unfold tcsetattr. auto 10 with respects. Qed.

Lemma respects_term_cleanup : respects R (term_cleanup W).
Proof. unfold term_cleanup. auto 10 using respects_tcsetattr with respects. Qed.

Lemma respects_run_hooks n : respects R (run_hooks W n).
Proof.
  induction n as [|n IH]; cbn; auto using respects_term_cleanup with respects.
Qed.

Lemma respects_exit {A} code : respects R (@exit W A code).
Proof. intros s. unfold exit. cbn. apply respects_run_hooks. Qed.

Lemma respects_err {A} code msg : respects R (@err W A code msg).
Proof. unfold err. auto using @respects_exit with respects. Qed.

Lemma respects_errx {A} code msg : respects R (@errx W A code msg).
Proof. unfold errx. auto using @respects_exit with respects. Qed.

Local Hint Resolve respects_tcsetattr respects_term_cleanup
  respects_run_hooks : respects.
Local Hint Extern 1 (respects R (exit _ _)) => apply @respects_exit : respects.
Local Hint Extern 1 (respects R (err _ _ _)) => apply @respects_err : respects.
Local Hint Extern 1 (respects R (errx _ _ _)) => apply @respects_errx : respects.

Lemma respects_getline : respects R getline.
Proof.
  intros s. unfold getline. destruct (stdin s) as [|c i]; [apply R_refl|].
  destruct (read_line (c :: i)) as [line rest]. cbn. apply R_stdin.
Qed.

Lemma respects_read_password : respects R (read_password W).
Proof.
  unfold read_password, fputs_stdout, tcgetattr_old, atexit_term_cleanup.
  apply respects_bind; [auto with respects|intros _].
  apply respects_bind; [auto 10 with respects|intros r].
  apply respects_bind; [auto 10 with respects|intros _].
  apply respects_bind; [auto 10 with respects|intros _].
  apply respects_bind; [auto 10 with respects|intros r'].
  apply respects_bind; [auto 10 with respects|intros _].
  apply respects_bind; [apply respects_getline|intros [password nbytes_r]].
  auto 10 with respects.
Qed.

Lemma respects_gpg_agent_connection path :
  respects R (gpg_agent_connection W path).
Proof. unfold gpg_agent_connection. auto 10 with respects. Qed.

Lemma respects_gpg_close agent : respects R (gpg_close agent).
Proof. unfold gpg_close. destruct agent; auto 10 with respects. Qed.

Lemma respects_unlock_loop agent password fgpt :
  respects R (unlock_loop W agent password fgpt).
Proof.
  induction fgpt as [|f next IH]; cbn; [auto with respects|].
  unfold gpg_preset_passphrase, warnx. auto 10 with respects.
Qed.

Lemma respects_unlock data password : respects R (unlock W data password).
Proof.
  unfold unlock, gpg_keyinfo.
  apply respects_bind; [apply respects_gpg_agent_connection|intros agent].
  apply respects_bind; [destruct agent; auto with respects|intros _].
  apply respects_bind.
  { destruct password; [auto with respects|].
    apply respects_bind; [apply respects_read_password|].
    intros [buf n]. auto with respects. }
  intros p. apply respects_bind; [auto with respects|intros fgpt].
  apply respects_bind; [apply respects_unlock_loop|intros [v|]].
  - auto with respects.
  - auto using respects_gpg_close with respects.
Qed.

Lemma respects_execv path argv : respects R (execv W path argv).
Proof.
  unfold execv. apply respects_bind; [auto with respects|intros _].
  destruct (execv_succeeds W path argv); [|auto with respects].
  intros s. apply R_refl.
Qed.

Lemma respects_execlp file argv : respects R (execlp W file argv).
Proof.
  unfold execlp. apply respects_bind; [auto with respects|intros _].
  destruct (execlp_succeeds W file argv); [|auto with respects].
  intros s. apply R_refl.
Qed.

Lemma respects_add_keys {A} keys : respects R (@add_keys W A keys).
Proof.
  unfold add_keys.
  destruct (getpwuid W) as [[[home|]]|];
    auto 10 using respects_execv with respects.
Qed.

Lemma respects_print_sh_env data : respects R (print_sh_env data).
Proof. unfold print_sh_env, printf. auto 10 with respects. Qed.

Lemma respects_print_fish_env data : respects R (print_fish_env data).
Proof. unfold print_fish_env, printf. auto 10 with respects. Qed.

Lemma respects_dispatch l data keys : respects R (dispatch W l data keys).
Proof.
  unfold dispatch, kill.
  destruct (l_verb l);
    auto 10 using @respects_add_keys, respects_execlp, respects_unlock
      with respects.
Qed.

Lemma respects_get_agent id start : respects R (get_agent W id start).
Proof.
  unfold get_agent. destruct (envoy_agent W id start) as [r data].
  destruct (status data); auto 10 with respects.
Qed.

(** [main] from the request on keeps to [R] as soon as [source_env]
    does, or is not called. *)
Lemma respects_main_after_agent l keys r data :
  (l_source l = true -> respects R (source_env W data)) ->
  respects R (main_after_agent W l keys r data).
Proof.
  intros Hsrc. unfold main_after_agent.
  apply respects_bind; [auto with respects|intros _].
  apply respects_decide; [auto with respects|].
  apply respects_bind.
  { destruct (l_source l); [apply Hsrc; reflexivity|auto with respects]. }
  intros _. apply respects_bind.
  { auto using respects_print_sh_env, respects_print_fish_env with respects. }
  intros _. apply respects_bind; [apply respects_dispatch|auto with respects].
Qed.

Lemma respects_main_body l keys :
  (l_source l = true -> forall data, respects R (source_env W data)) ->
  respects R (main_body W l keys).
Proof.
  intros Hsrc. unfold main_body.
  apply respects_bind; [apply respects_get_agent|intros [r data]].
  apply respects_main_after_agent. auto.
Qed.

(** The same from the state in which the request has just been sent. *)
Lemma respects_main_body_requested l keys s :
  (l_source l = true -> forall data, respects R (source_env W data)) ->
  R (set_trace (trace s ++ [Request (l_type l) (l_source l)]) s)
    (snd (main_body W l keys s)).
Proof.
  intros Hsrc. unfold main_body, get_agent.
  destruct (envoy_agent W (l_type l) (l_source l)) as [r data].
  rewrite bind_assoc, bind_emit.
  apply respects_bind.
  - destruct (status data); auto 10 with respects.
  - intros [r' data']. apply respects_main_after_agent. auto.
Qed.

Lemma respects_run_after_main opts keys s :
  R (snd (main W opts keys s)) (snd (run W opts keys s)).
Proof.
  unfold run. destruct (main W opts keys s) as [[code|code|p a] s']; cbn.
  - apply respects_run_hooks.
  - apply R_refl.
  - apply R_refl.
Qed.

End Respects.

(** ** The option loop *)

Lemma usage_exits {A} (W : world) (to_stderr : bool) (s : state) :
  exists c s', @usage W A to_stderr s = (Exit c, s').
Proof. unfold usage, bind, emit, modify, exit. cbn. eauto. Qed.

(** When the option loop runs to its end it has done nothing visible:
    only [-h], [-v], an unknown option or an unknown agent name act,
    and each of them leaves [main]. *)
Lemma getopt_loop_inr (W : world) (opts : list option_t) (l0 l : locals)
    (s : state) :
  fst (getopt_loop W opts l0 s) = Ret (inr l) ->
  getopt_loop W opts l0 s = (Ret (inr l), s).
Proof.
  revert l0. induction opts as [|opt rest IH]; intros l0 H.
  - unfold getopt_loop, ret in *. cbn in H. rewrite H. reflexivity.
  - destruct opt; cbn in H |- *; try (apply IH; exact H);
      try (unfold usage, printf, bind, emit, modify, exit, ret in H;
           cbn in H; discriminate).
    destruct (decide (lookup_agent W optarg = LAST_AGENT)).
    + unfold errx, bind, emit, modify, exit in H. cbn in H. discriminate.
    + apply IH; exact H.
Qed.

Lemma main_after_options (W : world) opts keys l s :
  fst (getopt_loop W opts main_locals s) = Ret (inr l) ->
  main W opts keys s = main_body W l keys s.
Proof.
  intros H. unfold main. erewrite bind_Ret by (apply getopt_loop_inr, H).
  reflexivity.
Qed.

(** ** The request *)

Lemma get_agent_ok (W : world) id start r data s :
  envoy_agent W id start = (r, data) -> 0 <= r ->
  status data = ENVOY_STOPPED \/ status data = ENVOY_STARTED
    \/ status data = ENVOY_RUNNING ->
  get_agent W id start s
  = (Ret (r, data), set_trace (trace s ++ [Request id start]) s).
Proof.
  intros E Hr Hst. unfold get_agent. rewrite E.
  not_negative r Hr.
  unfold bind, emit, modify, ret. cbn. rewrite Hlt.
  destruct Hst as [-> | [-> | ->]]; reflexivity.
Qed.

Lemma get_agent_rejected (W : world) id start r data s :
  envoy_agent W id start = (r, data) -> 0 <= r -> hooks s = O ->
  (status data = ENVOY_FAILED ->
   get_agent W id start s
   = (Exit EXIT_FAILURE,
      set_trace (trace s ++
        [Request id start;
         Errx EXIT_FAILURE "agent failed to start, check envoyd's log"]) s))
  /\ (status data = ENVOY_BADUSER ->
   get_agent W id start s
   = (Exit EXIT_FAILURE,
      set_trace (trace s ++
        [Request id start;
         Errx EXIT_FAILURE
           "connection rejected, user is unauthorized to use this agent"]) s)).
Proof.
  intros E Hr Hh. unfold get_agent. rewrite E.
  not_negative r Hr.
  split; intros Hst; rewrite Hst;
    unfold bind, emit, modify, ret, errx, exit; cbn;
    rewrite Hlt; cbn; rewrite Hh; cbn; rewrite <- app_assoc; reflexivity.
Qed.

(** C7: when the supervisor's reply has status Failed or BadUser the
    client exits with EXIT_FAILURE, which is not 0; between the request
    and the exit it does nothing but print its diagnostic, "agent
    failed to start, check envoyd's log" for Failed and "connection
    rejected, user is unauthorized to use this agent" for BadUser. *)
Theorem failed_or_baduser_aborts (W : world) (opts : list option_t)
    (keys : list string) (env : gmap string string) (input : list ascii)
    (l : locals) (r : Z) (data : agent_data_t) :
  fst (getopt_loop W opts main_locals (initial env input)) = Ret (inr l) ->
  envoy_agent W (l_type l) (l_source l) = (r, data) ->
  0 <= r ->
  (status data = ENVOY_FAILED ->
   run W opts keys (initial env input)
   = (Exited EXIT_FAILURE,
      set_trace
        [Request (l_type l) (l_source l);
         Errx EXIT_FAILURE "agent failed to start, check envoyd's log"]
        (initial env input)))
  /\ (status data = ENVOY_BADUSER ->
   run W opts keys (initial env input)
   = (Exited EXIT_FAILURE,
      set_trace
        [Request (l_type l) (l_source l);
         Errx EXIT_FAILURE
           "connection rejected, user is unauthorized to use this agent"]
        (initial env input)))
  /\ EXIT_FAILURE <> 0.
Proof.
  intros Hopts E Hr.
  destruct (get_agent_rejected W (l_type l) (l_source l) r data
              (initial env input) E Hr eq_refl) as [Hf Hb].
  unfold run. rewrite (main_after_options W opts keys l _ Hopts).
  unfold main_body.
  split; [|split].
  - intros Hst. erewrite bind_Exit by (apply Hf, Hst). reflexivity.
  - intros Hst. erewrite bind_Exit by (apply Hb, Hst). reflexivity.
  - discriminate.
Qed.

(** C3 (amended): when the reply has status Stopped the client exits 0
    directly after the request: it neither changes its environment nor
    prints anything, whatever the verb, and does nothing else. *)
Theorem stopped_exits_at_once (W : world) (opts : list option_t)
    (keys : list string) (env : gmap string string) (input : list ascii)
    (l : locals) (r : Z) (data : agent_data_t) :
  fst (getopt_loop W opts main_locals (initial env input)) = Ret (inr l) ->
  envoy_agent W (l_type l) (l_source l) = (r, data) ->
  0 <= r ->
  status data = ENVOY_STOPPED ->
  run W opts keys (initial env input)
  = (Exited 0,
     set_trace [Request (l_type l) (l_source l)] (initial env input)).
Proof.
  intros Hopts E Hr Hst.
  unfold run. rewrite (main_after_options W opts keys l _ Hopts).
  unfold main_body.
  erewrite bind_Ret by (apply (get_agent_ok W _ _ r data); auto).
  not_negative r Hr.
  unfold main_after_agent. rewrite Hlt. unfold bind at 1. unfold ret at 1.
  rewrite Hst. cbn. reflexivity.
Qed.

(** ** The driver on a live agent *)

Lemma set_trace_id (s : state) : set_trace (trace s) s = s.
Proof. destruct s; reflexivity. Qed.

Lemma source_step (W : world) (b : bool) (data : agent_data_t) (s : state) :
  exists s',
    (if b then source_env W data else ret tt) s = (Ret tt, s')
    /\ trace s'
       = trace s ++ (if b then source_events W data (next_conn s) else [])
    /\ hooks s' = hooks s.
Proof.
  destruct b.
  - unfold source_env, source_events, gpg_agent_connection, gpg_update_tty,
      gpg_close, setenv.
    destruct (decide (type data = AGENT_GPG_AGENT)) as [Hgpg|Hgpg].
    + destruct (gpg_connects W (gpg data));
        run_monad;
        eexists; (split; [reflexivity|]); cbn;
        rewrite <- !app_assoc; split; reflexivity.
    + run_monad.
      eexists; (split; [reflexivity|]); cbn; split; reflexivity.
  - exists s. unfold ret. rewrite app_nil_r. auto.
Qed.

Lemma print_step (verb : action) (data : agent_data_t) (s : state) :
  (if decide (verb = ACTION_SH_PRINT) then print_sh_env data
   else if decide (verb = ACTION_FISH_PRINT) then print_fish_env data
   else ret tt) s
  = (Ret tt, set_trace (trace s ++ print_events verb data) s).
Proof.
  destruct verb; cbn;
    try apply print_sh_env_run; try apply print_fish_env_run;
    unfold ret; rewrite app_nil_r, set_trace_id; reflexivity.
Qed.

(** On a reply with status Started or Running, [main] reaches its
    switch having done exactly the prelude. *)
Lemma main_body_prelude (W : world) (l : locals) (keys : list string)
    (env : gmap string string) (input : list ascii) (r : Z)
    (data : agent_data_t) :
  envoy_agent W (l_type l) (l_source l) = (r, data) ->
  0 <= r ->
  status data = ENVOY_STARTED \/ status data = ENVOY_RUNNING ->
  exists s1,
    main_body W l keys (initial env input)
    = (dispatch W l data keys ;;; ret 0) s1
    /\ trace s1 = prelude_events W l data
    /\ hooks s1 = O.
Proof.
  intros E Hr Hst. unfold main_body.
  erewrite bind_Ret by (apply (get_agent_ok W _ _ r data); auto).
  unfold main_after_agent.
  not_negative r Hr.
  rewrite Hlt. unfold bind at 1. unfold ret at 1.
  destruct (decide (status data = ENVOY_STOPPED)) as [Hs|_].
  { destruct Hst as [Hst|Hst]; rewrite Hst in Hs; discriminate. }
  destruct (source_step W (l_source l) data
              (set_trace (trace (initial env input)
                            ++ [Request (l_type l) (l_source l)])
                 (initial env input))) as (s' & Hsrc & Htr & Hh).
  erewrite bind_Ret by exact Hsrc.
  erewrite bind_Ret by apply print_step.
  eexists. split; [reflexivity|]. cbn. rewrite Htr. cbn.
  split; [reflexivity | exact Hh].
Qed.

Lemma run_of_main (W : world) opts keys s code s' :
  main W opts keys s = (Ret code, s') -> hooks s' = O ->
  run W opts keys s = (Exited code, s').
Proof. intros H Hh. unfold run. rewrite H, Hh. reflexivity. Qed.

(** C4 (amended): on a reply with status Started or Running, (1) with
    no verb the client stops after sourcing the environment when the
    status is Running or the agent is gpg-agent; (2) with the verb
    ShPrint or FishPrint it stops after printing, whatever the status
    and type, and never execs; (3) with no verb, status Started and an
    agent other than gpg-agent it execs /usr/bin/ssh-add with the
    arguments [--] and the resolved remaining command-line arguments,
    (4) which are none when the command line has none. *)
Theorem default_continuation (W : world) (opts : list option_t)
    (keys : list string) (env : gmap string string) (input : list ascii)
    (l : locals) (r : Z) (data : agent_data_t) :
  fst (getopt_loop W opts main_locals (initial env input)) = Ret (inr l) ->
  envoy_agent W (l_type l) (l_source l) = (r, data) ->
  0 <= r ->
  status data = ENVOY_STARTED \/ status data = ENVOY_RUNNING ->
  (l_verb l = ACTION_NONE ->
   status data = ENVOY_RUNNING \/ type data = AGENT_GPG_AGENT ->
   fst (run W opts keys (initial env input)) = Exited 0
   /\ trace (snd (run W opts keys (initial env input)))
      = prelude_events W l data)
  /\ (l_verb l = ACTION_SH_PRINT \/ l_verb l = ACTION_FISH_PRINT ->
   fst (run W opts keys (initial env input)) = Exited 0
   /\ trace (snd (run W opts keys (initial env input)))
      = prelude_events W l data)
  /\ (forall home,
   l_verb l = ACTION_NONE ->
   status data = ENVOY_STARTED ->
   type data <> AGENT_GPG_AGENT ->
   getpwuid W = Some {| pw_dir := Some home |} ->
   execv_succeeds W "/usr/bin/ssh-add" (ssh_add_argv W home keys) = true ->
   fst (run W opts keys (initial env input))
   = Execed "/usr/bin/ssh-add" (ssh_add_argv W home keys)
   /\ trace (snd (run W opts keys (initial env input)))
      = prelude_events W l data
        ++ [Execv "/usr/bin/ssh-add" (ssh_add_argv W home keys)])
  /\ (forall home, ssh_add_argv W home [] = ["/usr/bin/ssh-add"; "--"]).
Proof.
  intros Hopts E Hr Hst.
  destruct (main_body_prelude W l keys env input r data E Hr Hst)
    as (s1 & Hmain & Htr & Hh).
  pose proof (main_after_options W opts keys l _ Hopts) as Hm.
  rewrite Hmain in Hm. clear Hmain.
  split; [|split; [|split]].
  - intros Hv Hcond.
    assert (Hd : dispatch W l data keys s1 = (Ret tt, s1)).
    { unfold dispatch. rewrite Hv.
      destruct Hcond as [H|H]; rewrite H; cbn.
      - reflexivity.
      - rewrite orb_true_r. reflexivity. }
    erewrite bind_Ret in Hm by exact Hd.
    rewrite (run_of_main W opts keys _ 0 s1 Hm Hh). cbn. auto.
  - intros Hv.
    assert (Hd : dispatch W l data keys s1 = (Ret tt, s1)).
    { unfold dispatch. destruct Hv as [-> | ->]; reflexivity. }
    erewrite bind_Ret in Hm by exact Hd.
    rewrite (run_of_main W opts keys _ 0 s1 Hm Hh). cbn. auto.
  - intros home Hv Hs Hty Hpw Hexec.
    assert (Hd : dispatch W l data keys s1
                 = (Replaced "/usr/bin/ssh-add" (ssh_add_argv W home keys),
                    set_trace
                      (trace s1 ++ [Execv "/usr/bin/ssh-add"
                                      (ssh_add_argv W home keys)]) s1)).
    { unfold dispatch. rewrite Hv, Hs.
      rewrite (bool_decide_eq_false_2 _ Hty). cbn.
      apply add_keys_execs; assumption. }
    erewrite bind_Replaced in Hm by exact Hd.
    unfold run. rewrite Hm. cbn. rewrite Htr. auto.
  - reflexivity.
Qed.

(** ** The start flag and the environment *)

Lemma trace_grows_refl (s : state) : trace_grows s s.
Proof. exists []. symmetry. apply app_nil_r. Qed.

Lemma trace_grows_same (s s' : state) :
  trace s' = trace s -> trace_grows s s'.
Proof. intros H. exists []. rewrite H. symmetry. apply app_nil_r. Qed.

Lemma trace_grows_trans (a b c : state) :
  trace_grows a b -> trace_grows b c -> trace_grows a c.
Proof.
  intros [t Ht] [t' Ht']. exists (t ++ t').
  rewrite Ht', Ht, <- app_assoc. reflexivity.
Qed.

Lemma trace_grows_emit (s : state) (e : event) :
  trace_grows s (set_trace (trace s ++ [e]) s).
Proof. exists [e]. reflexivity. Qed.

Lemma source_env_trace_grows (W : world) (data : agent_data_t) :
  respects trace_grows (source_env W data).
Proof.
  intros s. destruct (source_step W true data s) as (s' & E & Ht & _).
  cbv iota in E. rewrite E. eexists. exact Ht.
Qed.

Lemma same_environ_trans (a b c : state) :
  same_environ a b -> same_environ b c -> same_environ a c.
Proof. unfold same_environ. congruence. Qed.

(** The first thing [main] does after the options is the request. *)
Lemma run_starts_with_request (W : world) opts keys env input l :
  fst (getopt_loop W opts main_locals (initial env input)) = Ret (inr l) ->
  exists t,
    trace (snd (run W opts keys (initial env input)))
    = Request (l_type l) (l_source l) :: t.
Proof.
  intros Hopts.
  assert (H1 : trace_grows
                 (set_trace [Request (l_type l) (l_source l)]
                    (initial env input))
                 (snd (main W opts keys (initial env input)))).
  { rewrite (main_after_options W opts keys l _ Hopts).
    apply (respects_main_body_requested W trace_grows trace_grows_refl
             trace_grows_trans trace_grows_emit);
      try (intros; apply trace_grows_same; reflexivity).
    intros _ data. apply source_env_trace_grows. }
  assert (H2 : trace_grows (snd (main W opts keys (initial env input)))
                 (snd (run W opts keys (initial env input)))).
  { apply (respects_run_after_main W trace_grows trace_grows_refl
             trace_grows_trans trace_grows_emit);
      intros; apply trace_grows_same; reflexivity. }
  destruct (trace_grows_trans _ _ _ H1 H2) as [t Ht].
  exists t. exact Ht.
Qed.

(** Without [source_env] the environment is never touched. *)
Lemma run_same_environ (W : world) opts keys env input l :
  fst (getopt_loop W opts main_locals (initial env input)) = Ret (inr l) ->
  l_source l = false ->
  environ (snd (run W opts keys (initial env input))) = env.
Proof.
  intros Hopts Hsrc.
  assert (H1 : same_environ (initial env input)
                 (snd (main W opts keys (initial env input)))).
  { rewrite (main_after_options W opts keys l _ Hopts).
    apply (respects_main_body W same_environ); try reflexivity.
    - exact same_environ_trans.
    - rewrite Hsrc. discriminate. }
  assert (H2 : same_environ (snd (main W opts keys (initial env input)))
                 (snd (run W opts keys (initial env input)))).
  { apply (respects_run_after_main W same_environ); try reflexivity.
    exact same_environ_trans. }
  exact (same_environ_trans _ _ _ H1 H2).
Qed.

(** What the option loop leaves in [source] and [verb]. *)
Lemma getopt_loop_source (W : world) (opts : list option_t) (l0 l : locals)
    (s : state) :
  fst (getopt_loop W opts l0 s) = Ret (inr l) ->
  (l_source l = false
   <-> l_source l0 = false \/ In opt_k opts \/ In opt_K opts)
  /\ ((l_verb l0 = ACTION_CLEAR \/ l_verb l0 = ACTION_KILL ->
       l_source l0 = false) ->
      l_verb l = ACTION_CLEAR \/ l_verb l = ACTION_KILL ->
      l_source l = false).
Proof.
  revert l0. induction opts as [|opt rest IH]; intros l0 H.
  - unfold getopt_loop, ret in H. cbn in H.
    injection H as ->. cbn. tauto.
  - destruct opt; cbn in H;
      try (unfold usage, printf, bind, emit, modify, exit, ret in H;
           cbn in H; discriminate);
      try (apply IH in H; cbn in H |- *;
           intuition (try discriminate; auto); fail).
    destruct (decide (lookup_agent W optarg = LAST_AGENT)).
    + unfold errx, bind, emit, modify, exit in H. cbn in H. discriminate.
    + apply IH in H; cbn in H |- *. intuition (try discriminate; auto).
Qed.

(** C5 (amended): the request carries [start = false] exactly when
    [-k] or [-K] occurs among the options, so whenever the selected
    verb is Clear or Kill, and [start = true] otherwise; the
    environment of the client is changed only when [start = true]. *)
Theorem start_flag (W : world) (opts : list option_t) (keys : list string)
    (env : gmap string string) (input : list ascii) (l : locals) :
  fst (getopt_loop W opts main_locals (initial env input)) = Ret (inr l) ->
  (exists t,
      trace (snd (run W opts keys (initial env input)))
      = Request (l_type l) (l_source l) :: t)
  /\ (l_source l = false <-> In opt_k opts \/ In opt_K opts)
  /\ (l_verb l = ACTION_CLEAR \/ l_verb l = ACTION_KILL -> l_source l = false)
  /\ (l_source l = false ->
      environ (snd (run W opts keys (initial env input))) = env).
Proof.
  intros Hopts.
  destruct (getopt_loop_source W opts main_locals l _ Hopts) as [Hsrc Hverb].
  split; [|split; [|split]].
  - apply run_starts_with_request; exact Hopts.
  - rewrite Hsrc. cbn. intuition discriminate.
  - apply Hverb. cbn. intuition discriminate.
  - apply run_same_environ; exact Hopts.
Qed.

(** ** The unlock flow *)

Lemma set_trace_app (t t' : list event) (s : state) :
  set_trace (trace (set_trace (trace s ++ t) s) ++ t')
    (set_trace (trace s ++ t) s)
  = set_trace (trace s ++ t ++ t') s.
Proof. cbn. rewrite <- app_assoc. reflexivity. Qed.

(** When gpg-agent accepts every preset the loop runs to its end, one
    preset per fingerprint, in order. *)
Lemma unlock_loop_all_ok (W : world) (agent : gpg_handle) (pass : string)
    (fgpt : list string) (s : state) :
  Forall (preset_ok W pass) fgpt ->
  unlock_loop W agent pass fgpt s
  = (Ret None,
     set_trace
       (trace s ++ map (fun f => GpgPreset agent f (-1) pass) fgpt) s).
Proof.
  intros Hok. revert s. induction Hok as [|f next Hf Hnext IH]; intros s.
  - cbn. unfold ret. rewrite app_nil_r, set_trace_id. reflexivity.
  - cbn [unlock_loop]. unfold gpg_preset_passphrase.
    rewrite bind_assoc, bind_emit. unfold ret at 1. unfold bind at 1.
    not_negative (gpg_preset_result W f (-1) pass) Hf.
    rewrite Hlt, IH, set_trace_app. reflexivity.
Qed.

(** The first preset that gpg-agent refuses ends the loop: a warning
    naming the fingerprint, [return 1], and no preset for the
    fingerprints after it. *)
Lemma unlock_loop_first_failure (W : world) (agent : gpg_handle)
    (pass : string) (pre : list string) (f : string) (post : list string)
    (s : state) :
  Forall (preset_ok W pass) pre ->
  gpg_preset_result W f (-1) pass < 0 ->
  unlock_loop W agent pass (pre ++ f :: post) s
  = (Ret (Some 1),
     set_trace
       (trace s ++ map (fun f => GpgPreset agent f (-1) pass) (pre ++ [f])
          ++ [unlock_warning f]) s).
Proof.
  intros Hok Hf. revert s. induction Hok as [|g next Hg Hnext IH]; intros s.
  - cbn [app unlock_loop]. unfold gpg_preset_passphrase, warnx.
    rewrite bind_assoc, bind_emit. unfold ret at 1. unfold bind at 1.
    assert (Hlt : (gpg_preset_result W f (-1) pass <? 0) = true)
      by (apply Z.ltb_lt; exact Hf).
    rewrite Hlt, bind_emit. unfold ret. cbn. rewrite <- app_assoc.
    reflexivity.
  - cbn [app unlock_loop]. unfold gpg_preset_passphrase.
    rewrite bind_assoc, bind_emit. unfold ret at 1. unfold bind at 1.
    not_negative (gpg_preset_result W g (-1) pass) Hg.
    rewrite Hlt, IH, set_trace_app. reflexivity.
Qed.

(** [unlock] up to its loop, with the passphrase from the command
    line and gpg-agent reachable. *)
Lemma unlock_reaches_loop (W : world) (data : agent_data_t) (pass : string)
    (s : state) :
  gpg_connects W (gpg data) = true ->
  unlock W data (Some pass) s
  = (let* r := unlock_loop W (Some (next_conn s)) pass (gpg_keyinfo_list W) in
     match r with
     | Some v => ret v
     | None => gpg_close (Some (next_conn s)) ;;; ret 0
     end)
      (set_conns ({[ next_conn s ]} ∪ conns s) (S (next_conn s))
         (set_trace
            (trace s ++ [GpgOpen (gpg data) (Some (next_conn s));
                         GpgKeyinfo (Some (next_conn s))]) s)).
Proof.
  intros Hc. unfold unlock, gpg_agent_connection, gpg_keyinfo. rewrite Hc.
  run_monad. rewrite <- app_assoc.
  reflexivity.
Qed.

(** C1 (amended): in the unlock flow the client issues PRESET_PASSPHRASE
    for the fingerprints of KEYINFO --list in order, up to and including
    the first whose preset gpg-agent refuses; there it emits a warning
    naming that fingerprint, attempts no later fingerprint, and [unlock]
    returns 1.  When every preset succeeds it issues one preset per
    fingerprint, closes the connection, [unlock] returns 0 and the
    process exits 0. *)
Theorem unlock_stops_at_first_failure (W : world) (data : agent_data_t)
    (pass : string) (s : state) :
  gpg_connects W (gpg data) = true ->
  let agent := Some (next_conn s) in
  let opened := [GpgOpen (gpg data) agent; GpgKeyinfo agent] in
  let preset := fun f => GpgPreset agent f (-1) pass in
  (Forall (preset_ok W pass) (gpg_keyinfo_list W) ->
   unlock W data (Some pass) s
   = (Ret 0,
      set_conns (({[ next_conn s ]} ∪ conns s) ∖ {[ next_conn s ]})
        (S (next_conn s))
        (set_trace
           (trace s ++ opened ++ map preset (gpg_keyinfo_list W)
              ++ [GpgClose agent]) s)))
  /\ (forall pre f post,
   gpg_keyinfo_list W = pre ++ f :: post ->
   Forall (preset_ok W pass) pre ->
   gpg_preset_result W f (-1) pass < 0 ->
   unlock W data (Some pass) s
   = (Ret 1,
      set_conns ({[ next_conn s ]} ∪ conns s) (S (next_conn s))
        (set_trace
           (trace s ++ opened ++ map preset (pre ++ [f])
              ++ [unlock_warning f]) s)))
  /\ (forall opts keys env input l r,
   fst (getopt_loop W opts main_locals (initial env input)) = Ret (inr l) ->
   l_verb l = ACTION_UNLOCK ->
   l_password l = Some pass ->
   envoy_agent W (l_type l) (l_source l) = (r, data) ->
   0 <= r ->
   status data = ENVOY_STARTED \/ status data = ENVOY_RUNNING ->
   Forall (preset_ok W pass) (gpg_keyinfo_list W) ->
   fst (run W opts keys (initial env input)) = Exited 0).
Proof.
  intros Hc agent opened preset. subst agent opened preset.
  assert (Hall : forall s0,
    Forall (preset_ok W pass) (gpg_keyinfo_list W) ->
    unlock W data (Some pass) s0
    = (Ret 0,
       set_conns (({[ next_conn s0 ]} ∪ conns s0) ∖ {[ next_conn s0 ]})
         (S (next_conn s0))
         (set_trace
            (trace s0 ++ [GpgOpen (gpg data) (Some (next_conn s0));
                          GpgKeyinfo (Some (next_conn s0))]
               ++ map (fun f => GpgPreset (Some (next_conn s0)) f (-1) pass)
                    (gpg_keyinfo_list W)
               ++ [GpgClose (Some (next_conn s0))]) s0))).
  { intros s0 Hok. rewrite (unlock_reaches_loop W data pass s0 Hc).
    erewrite bind_Ret by (apply unlock_loop_all_ok; exact Hok).
    unfold gpg_close, bind, emit, modify, ret. cbn.
    rewrite <- !app_assoc. reflexivity. }
  split; [|split].
  - apply Hall.
  - intros pre f post Hl Hok Hf. rewrite (unlock_reaches_loop W data pass s Hc).
    rewrite Hl.
    erewrite bind_Ret by (apply unlock_loop_first_failure; assumption).
    unfold ret. cbn. rewrite <- !app_assoc. reflexivity.
  - intros opts keys env input l r Hopts Hv Hp E Hr Hst Hok.
    destruct (main_body_prelude W l keys env input r data E Hr Hst)
      as (s1 & Hmain & Htr & Hh).
    pose proof (main_after_options W opts keys l _ Hopts) as Hm.
    rewrite Hmain in Hm. clear Hmain.
    assert (Hd : exists s2, dispatch W l data keys s1 = (Ret tt, s2)
                            /\ hooks s2 = O).
    { unfold dispatch. rewrite Hv, Hp. cbv iota.
      erewrite bind_Ret by (apply Hall; exact Hok).
      eexists. split; [reflexivity|]. exact Hh. }
    destruct Hd as (s2 & Hd & Hh2).
    erewrite bind_Ret in Hm by exact Hd.
    rewrite (run_of_main W opts keys _ 0 s2 Hm Hh2). reflexivity.
Qed.

(** ** Reading the passphrase *)

Lemma read_line_newline (body more : list ascii) :
  ~ In "010"%char body ->
  read_line (body ++ "010"%char :: more) = (body ++ ["010"%char], more).
Proof.
  induction body as [|c body IH]; intros Hnl; cbn.
  - reflexivity.
  - destruct (decide (c = "010"%char)) as [->|Hc].
    + exfalso. apply Hnl. left. reflexivity.
    + rewrite IH; [reflexivity|]. intros Hin. apply Hnl. right. exact Hin.
Qed.

Lemma read_line_eof (input : list ascii) :
  ~ In "010"%char input -> read_line input = (input, []).
Proof.
  induction input as [|c input IH]; intros Hnl; cbn.
  - reflexivity.
  - destruct (decide (c = "010"%char)) as [->|Hc].
    + exfalso. apply Hnl. left. reflexivity.
    + rewrite IH; [reflexivity|]. intros Hin. apply Hnl. right. exact Hin.
Qed.

Lemma read_line_cons (c : ascii) (input : list ascii) :
  exists line rest, read_line (c :: input) = (c :: line, rest).
Proof.
  cbn. destruct (decide (c = "010"%char)); [eauto|].
  destruct (read_line input) as [line rest]. eauto.
Qed.

(** A line read from a non-empty input is not empty. *)
Lemma read_line_nonempty (input line rest : list ascii) :
  input <> [] ->
  read_line input = (line, rest) ->
  exists body x, line = body ++ [x].
Proof.
  intros Hin H. destruct input as [|c input]; [congruence|].
  destruct (read_line_cons c input) as (line' & rest' & E).
  rewrite E in H. injection H as <- <-.
  exists (removelast (c :: line')), (List.last (c :: line') c).
  apply app_removelast_last. discriminate.
Qed.

(** Overwriting the last byte of the line with zero. *)
Lemma drop_last_byte (body : list ascii) (x : ascii) :
  <[Z.to_nat (Z.of_nat (length (body ++ [x])) - 1) := NUL]>
    ((body ++ [x]) ++ [NUL])
  = body ++ [NUL; NUL].
Proof.
  rewrite length_app. cbn [length].
  replace (Z.to_nat (Z.of_nat (length body + 1) - 1)) with (length body + 0)%nat
    by lia.
  rewrite <- app_assoc. rewrite insert_app_r. reflexivity.
Qed.

Lemma c_str_app_NUL (body rest : list ascii) :
  ~ In NUL body ->
  c_str (body ++ NUL :: rest) = string_of_list_ascii body.
Proof.
  induction body as [|c body IH]; intros Hn; cbn.
  - reflexivity.
  - destruct (decide (c = NUL)) as [->|Hc].
    + exfalso. apply Hn. left. reflexivity.
    + rewrite IH; [reflexivity|]. intros Hin. apply Hn. right. exact Hin.
Qed.

(** [read_password] on a working terminal with input left: the line
    is read, its last byte overwritten with zero, and the terminal put
    back as it was. *)
Lemma read_password_reads (W : world) (s : state) (body : list ascii)
    (x : ascii) (rest : list ascii) :
  tcgetattr_ok W = true -> tcsetattr_ok W = true ->
  stdin s <> [] ->
  read_line (stdin s) = (body ++ [x], rest) ->
  exists s',
    read_password W s
    = (Ret (body ++ [NUL; NUL], Z.of_nat (length body)), s')
    /\ stdin s' = rest
    /\ echo s' = echo s
    /\ trace s'
       = trace s ++ [Stdout "Password: "; Atexit; Tcsetattr false;
                     Tcsetattr (echo s); Stdout LF].
Proof.
  intros Hget Hset Hin Hline.
  unfold read_password, fputs_stdout, tcgetattr_old, atexit_term_cleanup,
    tcsetattr, getline.
  rewrite Hget, Hset.
  run_monad.
  destruct (stdin s) as [|c i] eqn:Hs; [congruence|].
  rewrite Hline.
  assert (Hlt : (Z.of_nat (length (body ++ [x])) <? 0) = false)
    by (apply Z.ltb_ge; lia).
  rewrite Hlt. cbn. rewrite drop_last_byte.
  replace (Z.of_nat (length (body ++ [x])) - 1) with (Z.of_nat (length body))
    by (rewrite length_app; cbn; lia).
  eexists. split; [reflexivity|]. cbn. rewrite <- !app_assoc. auto.
Qed.

Lemma read_password_eof (W : world) (s : state) :
  tcgetattr_ok W = true -> tcsetattr_ok W = true ->
  stdin s = [] -> hooks s = O ->
  exists s',
    read_password W s = (Exit EXIT_FAILURE, s')
    /\ trace s'
       = trace s ++ [Stdout "Password: "; Atexit; Tcsetattr false;
                     Errx EXIT_FAILURE "failed to read password";
                     Tcsetattr (echo s)].
Proof.
  intros Hget Hset Hin Hh.
  unfold read_password, fputs_stdout, tcgetattr_old, atexit_term_cleanup,
    tcsetattr, getline, errx, exit.
  rewrite Hget, Hset.
  run_monad. rewrite Hin, Hh. cbn.
  unfold term_cleanup, tcsetattr, bind, emit, modify, get, ret. cbn.
  rewrite Hset. cbn.
  eexists. split; [reflexivity|]. cbn. rewrite <- !app_assoc. reflexivity.
Qed.

(** C10: on a working terminal [read_password] hands back the line it
    read without its last byte, whatever that byte is: (1) the buffer
    holds the line with the last byte replaced by the terminating zero
    and the returned length is one less than the number of bytes read;
    (2) when the line ends in a newline, the newline is what is
    dropped; (3) when the input ends without a newline, the last
    character of the passphrase is dropped; (4) a bare newline gives
    the empty passphrase; (5) at the end of the input with nothing read
    the call is fatal with "failed to read password". *)
Theorem read_password_drops_last_byte (W : world) (s : state) :
  tcgetattr_ok W = true -> tcsetattr_ok W = true ->
  (forall line rest,
      stdin s <> [] -> read_line (stdin s) = (line, rest) ->
      exists s',
        read_password W s
        = (Ret (removelast line ++ [NUL; NUL], Z.of_nat (length line) - 1), s')
        /\ stdin s' = rest)
  /\ (forall body more,
      stdin s = body ++ "010"%char :: more -> ~ In "010"%char body ->
      exists s',
        read_password W s
        = (Ret (body ++ [NUL; NUL], Z.of_nat (length body)), s')
        /\ (~ In NUL body ->
            c_str (body ++ [NUL; NUL]) = string_of_list_ascii body))
  /\ (forall body c,
      stdin s = body ++ [c] -> ~ In "010"%char (body ++ [c]) ->
      exists s',
        read_password W s
        = (Ret (body ++ [NUL; NUL], Z.of_nat (length body)), s')
        /\ (~ In NUL body ->
            c_str (body ++ [NUL; NUL]) = string_of_list_ascii body))
  /\ (forall more,
      stdin s = "010"%char :: more ->
      exists s',
        read_password W s = (Ret ([NUL; NUL], 0), s')
        /\ c_str [NUL; NUL] = EmptyString)
  /\ (stdin s = [] -> hooks s = O ->
      exists s',
        read_password W s = (Exit EXIT_FAILURE, s')
        /\ trace s'
           = trace s ++ [Stdout "Password: "; Atexit; Tcsetattr false;
                         Errx EXIT_FAILURE "failed to read password";
                         Tcsetattr (echo s)]).
Proof.
  intros Hget Hset.
  assert (Hnl : forall body more,
    stdin s = body ++ "010"%char :: more -> ~ In "010"%char body ->
    exists s',
      read_password W s
      = (Ret (body ++ [NUL; NUL], Z.of_nat (length body)), s')
      /\ (~ In NUL body ->
          c_str (body ++ [NUL; NUL]) = string_of_list_ascii body)).
  { intros body more Hs Hb.
    destruct (read_password_reads W s body "010"%char more Hget Hset)
      as (s' & E & _).
    - rewrite Hs. destruct body; discriminate.
    - rewrite Hs. apply read_line_newline, Hb.
    - exists s'. split; [exact E|]. apply c_str_app_NUL. }
  split; [|split; [|split; [|split]]].
  - intros line rest Hin Hline.
    destruct (read_line_nonempty _ _ _ Hin Hline) as (body & x & ->).
    destruct (read_password_reads W s body x rest Hget Hset Hin Hline)
      as (s' & E & Hrest & _).
    exists s'. rewrite removelast_last, length_app. cbn [length].
    replace (Z.of_nat (length body + 1) - 1) with (Z.of_nat (length body))
      by lia.
    auto.
  - exact Hnl.
  - intros body c Hs Hb.
    destruct (read_password_reads W s body c [] Hget Hset) as (s' & E & _).
    + rewrite Hs. destruct body; discriminate.
    + rewrite Hs. apply read_line_eof, Hb.
    + exists s'. split; [exact E|]. apply c_str_app_NUL.
  - intros more Hs.
    destruct (Hnl [] more Hs) as (s' & E & _); [intros []|].
    exists s'. split; [exact E | reflexivity].
  - apply read_password_eof; assumption.
Qed.

(** * The claims on concrete runs *)

(** A value that contains a single quote is copied as it is. *)
Example print_sh_env_no_escaping :
  stdout_of
    (trace (snd (print_sh_env
                   {| pid := 7; type := AGENT_SSH_AGENT;
                      status := ENVOY_RUNNING; sock := "/tmp/a'b"; gpg := EmptyString |}
                   fresh)))
  = "export SSH_AUTH_SOCK='/tmp/a'b'" +:+ LF
    +:+ "export SSH_AGENT_PID='7'" +:+ LF.
Proof. reflexivity. Qed.

(** ** C1 *)

(** C1, counterexample: gpg-agent refuses the passphrase for AAAA, the
    first of the two keys.  The client presets AAAA, warns, and never
    presets BBBB; the process exits 0, not 1. *)
Lemma unlock_failure_counterexample :
  gpg_keyinfo_list (alice (gpg_reply ENVOY_RUNNING) anywhere ["AAAA"])
  = ["AAAA"; "BBBB"]
  /\ fst (run (alice (gpg_reply ENVOY_RUNNING) anywhere ["AAAA"])
            [opt_u (Some "hunter2")] [] fresh)
     = Exited 0
  /\ trace (snd (run (alice (gpg_reply ENVOY_RUNNING) anywhere ["AAAA"])
                   [opt_u (Some "hunter2")] [] fresh))
     = [Request AGENT_DEFAULT true;
        GpgOpen "/run/user/1000/gnupg/S.gpg-agent:1234:1" (Some 0%nat);
        GpgUpdateTty (Some 0%nat);
        GpgClose (Some 0%nat);
        Setenv "SSH_AUTH_SOCK" "/run/user/1000/gnupg/S.gpg-agent.ssh";
        GpgOpen "/run/user/1000/gnupg/S.gpg-agent:1234:1" (Some 1%nat);
        GpgKeyinfo (Some 1%nat);
        GpgPreset (Some 1%nat) "AAAA" (-1) "hunter2";
        Warnx "failed to unlock key 'AAAA'"].
Proof. vm_compute. auto. Qed.

Lemma alice_accepts_all (reply : agent_data_t) (pass : string) :
  Forall (preset_ok (alice reply anywhere []) pass) ["AAAA"; "BBBB"].
Proof.
  constructor; [vm_compute; discriminate|].
  constructor; [vm_compute; discriminate|].
  constructor.
Qed.

(** C1, witness: with every preset accepted both keys are preset in
    order and the process exits 0; with BBBB refused the loop stops
    there and [unlock] returns 1. *)
Lemma unlock_stops_at_first_failure_witness :
  fst (unlock (alice (gpg_reply ENVOY_RUNNING) anywhere [])
         (gpg_reply ENVOY_RUNNING) (Some "hunter2") fresh)
  = Ret 0
  /\ fst (unlock (alice (gpg_reply ENVOY_RUNNING) anywhere ["BBBB"])
            (gpg_reply ENVOY_RUNNING) (Some "hunter2") fresh)
     = Ret 1
  /\ fst (run (alice (gpg_reply ENVOY_RUNNING) anywhere [])
            [opt_t "gpg-agent"; opt_u (Some "hunter2")] [] fresh)
     = Exited 0.
Proof.
  pose proof (unlock_stops_at_first_failure
                (alice (gpg_reply ENVOY_RUNNING) anywhere [])
                (gpg_reply ENVOY_RUNNING) "hunter2" fresh eq_refl)
    as (Hall & _ & Hrun).
  pose proof (unlock_stops_at_first_failure
                (alice (gpg_reply ENVOY_RUNNING) anywhere ["BBBB"])
                (gpg_reply ENVOY_RUNNING) "hunter2" fresh eq_refl)
    as (_ & Hfail & _).
  split; [|split].
  - rewrite (Hall (alice_accepts_all _ _)). reflexivity.
  - rewrite (Hfail ["AAAA"] "BBBB" [] eq_refl).
    + reflexivity.
    + constructor; [vm_compute; discriminate|]. constructor.
    + vm_compute. reflexivity.
  - apply (Hrun [opt_t "gpg-agent"; opt_u (Some "hunter2")] [] ∅ []
             {| l_source := true; l_password := Some "hunter2";
                l_verb := ACTION_UNLOCK; l_type := AGENT_GPG_AGENT |} 0);
      first [ reflexivity | discriminate | right; reflexivity
            | apply alice_accepts_all ].
Defined.

(** ** C2 *)

(** C2, the code at a reply that is not gpg-agent's: [envoy -u hunter2]
    answered by a running ssh-agent.  The verb Unlock enters the unlock
    flow without looking at the type of the reply.  Where a connection
    to the reply's (empty) gpg path fails, the client has tried it and
    dies of the failed connection; where one is accepted, it presets
    the passphrase for every key and exits 0.  The sibling verb Clear
    on the same reply is refused with "only gpg-agent supports this
    operation" before anything else is done. *)
Theorem unlock_ignores_agent_type :
  type (ssh_reply ENVOY_RUNNING) = AGENT_SSH_AGENT
  /\ run (alice (ssh_reply ENVOY_RUNNING) nonempty_path [])
       [opt_u (Some "hunter2")] [] fresh
     = (Exited EXIT_FAILURE,
        set_environ
          (<["SSH_AUTH_SOCK" := "/run/user/1000/ssh-XXXX/agent.4320"]> ∅)
          (set_trace
             [Request AGENT_DEFAULT true;
              Setenv "SSH_AUTH_SOCK" "/run/user/1000/ssh-XXXX/agent.4320";
              GpgOpen EmptyString None;
              Err EXIT_FAILURE "failed to open connection to gpg-agent"]
             fresh))
  /\ fst (run (alice (ssh_reply ENVOY_RUNNING) anywhere [])
            [opt_u (Some "hunter2")] [] fresh)
     = Exited 0
  /\ trace (snd (run (alice (ssh_reply ENVOY_RUNNING) anywhere [])
                   [opt_u (Some "hunter2")] [] fresh))
     = [Request AGENT_DEFAULT true;
        Setenv "SSH_AUTH_SOCK" "/run/user/1000/ssh-XXXX/agent.4320";
        GpgOpen EmptyString (Some 0%nat);
        GpgKeyinfo (Some 0%nat);
        GpgPreset (Some 0%nat) "AAAA" (-1) "hunter2";
        GpgPreset (Some 0%nat) "BBBB" (-1) "hunter2";
        GpgClose (Some 0%nat)]
  /\ run (alice (ssh_reply ENVOY_RUNNING) anywhere []) [opt_k] [] fresh
     = (Exited EXIT_FAILURE,
        set_trace
          [Request AGENT_DEFAULT false;
           Errx EXIT_FAILURE "only gpg-agent supports this operation"]
          fresh).
Proof. vm_compute. auto 10. Qed.

(** ** C3 *)

(** C3, counterexample: [envoy -K -p] when the supervisor has no agent.
    The reply is Stopped and the verb is ShPrint; the client exits 0
    with nothing on stdout, although the export lines of this reply are
    not empty. *)
Lemma stopped_print_counterexample :
  fst (getopt_loop (alice (ssh_reply ENVOY_STOPPED) anywhere [])
         [opt_K; opt_p] main_locals fresh)
  = Ret (inr {| l_source := false; l_password := None;
                l_verb := ACTION_SH_PRINT; l_type := AGENT_DEFAULT |})
  /\ run (alice (ssh_reply ENVOY_STOPPED) anywhere []) [opt_K; opt_p] [] fresh
     = (Exited 0, set_trace [Request AGENT_DEFAULT false] fresh)
  /\ stdout_of (trace (snd (run (alice (ssh_reply ENVOY_STOPPED) anywhere [])
                              [opt_K; opt_p] [] fresh)))
     = EmptyString
  /\ stdout_of (print_events ACTION_SH_PRINT (ssh_reply ENVOY_STOPPED)) <> EmptyString.
Proof. vm_compute. repeat split; discriminate. Qed.

(** C3, witness: the same run, and [envoy -f] answered Stopped. *)
Lemma stopped_exits_at_once_witness :
  run (alice (ssh_reply ENVOY_STOPPED) anywhere []) [opt_K; opt_p] [] fresh
  = (Exited 0, set_trace [Request AGENT_DEFAULT false] fresh)
  /\ run (alice (gpg_reply ENVOY_STOPPED) anywhere []) [opt_f] [] fresh
     = (Exited 0, set_trace [Request AGENT_DEFAULT true] fresh).
Proof.
  split.
  - apply (stopped_exits_at_once
             (alice (ssh_reply ENVOY_STOPPED) anywhere []) [opt_K; opt_p] []
             ∅ []
             {| l_source := false; l_password := None;
                l_verb := ACTION_SH_PRINT; l_type := AGENT_DEFAULT |}
             0 (ssh_reply ENVOY_STOPPED));
      first [ reflexivity | discriminate ].
  - apply (stopped_exits_at_once
             (alice (gpg_reply ENVOY_STOPPED) anywhere []) [opt_f] [] ∅ []
             {| l_source := true; l_password := None;
                l_verb := ACTION_FISH_PRINT; l_type := AGENT_DEFAULT |}
             0 (gpg_reply ENVOY_STOPPED));
      first [ reflexivity | discriminate ].
Defined.

(** ** C4 *)

(** C4, counterexample: [envoy -p] answered by a freshly started
    ssh-agent.  The client sources the environment, prints the two
    export lines and exits 0; it does not exec ssh-add. *)
Lemma print_started_counterexample :
  run (alice (ssh_reply ENVOY_STARTED) anywhere []) [opt_p] [] fresh
  = (Exited 0,
     set_environ
       (<["SSH_AUTH_SOCK" := "/run/user/1000/ssh-XXXX/agent.4320"]> ∅)
       (set_trace
          [Request AGENT_DEFAULT true;
           Setenv "SSH_AUTH_SOCK" "/run/user/1000/ssh-XXXX/agent.4320";
           Stdout ("export SSH_AUTH_SOCK='/run/user/1000/ssh-XXXX/agent.4320'"
                     +:+ LF);
           Stdout ("export SSH_AGENT_PID='4321'" +:+ LF)]
          fresh)).
Proof. vm_compute. reflexivity. Qed.

(** C4, witness: no verb and a freshly started ssh-agent execs
    ssh-add with no keys; no verb and a running ssh-agent stops; [-p]
    on a freshly started ssh-agent stops after printing. *)
Lemma default_continuation_witness :
  fst (run (alice (ssh_reply ENVOY_STARTED) anywhere []) [] [] fresh)
  = Execed "/usr/bin/ssh-add" ["/usr/bin/ssh-add"; "--"]
  /\ fst (run (alice (ssh_reply ENVOY_RUNNING) anywhere []) [] [] fresh)
     = Exited 0
  /\ fst (run (alice (ssh_reply ENVOY_STARTED) anywhere []) [opt_p] [] fresh)
     = Exited 0.
Proof.
  pose proof (default_continuation
                (alice (ssh_reply ENVOY_STARTED) anywhere []) [] [] ∅ []
                main_locals 0 (ssh_reply ENVOY_STARTED) eq_refl eq_refl)
    as H1.
  pose proof (default_continuation
                (alice (ssh_reply ENVOY_RUNNING) anywhere []) [] [] ∅ []
                main_locals 0 (ssh_reply ENVOY_RUNNING) eq_refl eq_refl)
    as H2.
  pose proof (default_continuation
                (alice (ssh_reply ENVOY_STARTED) anywhere []) [opt_p] [] ∅ []
                {| l_source := true; l_password := None;
                   l_verb := ACTION_SH_PRINT; l_type := AGENT_DEFAULT |}
                0 (ssh_reply ENVOY_STARTED) eq_refl eq_refl)
    as H3.
  destruct H1 as (_ & _ & H1 & _); [discriminate | left; reflexivity |].
  destruct H2 as (H2 & _); [discriminate | right; reflexivity |].
  destruct H3 as (_ & H3 & _); [discriminate | left; reflexivity |].
  split; [|split].
  - apply (H1 "/home/alice"); first [ reflexivity | discriminate ].
  - apply H2; [reflexivity | left; reflexivity].
  - apply H3. left. reflexivity.
Defined.

(** ** C5 *)

(** C5, counterexample: [envoy -k -p].  The selected verb is ShPrint,
    yet the request carries [start = false]. *)
Lemma sticky_source_counterexample :
  fst (getopt_loop (alice (gpg_reply ENVOY_RUNNING) anywhere [])
         [opt_k; opt_p] main_locals fresh)
  = Ret (inr {| l_source := false; l_password := None;
                l_verb := ACTION_SH_PRINT; l_type := AGENT_DEFAULT |})
  /\ hd_error (trace (snd (run (alice (gpg_reply ENVOY_RUNNING) anywhere [])
                             [opt_k; opt_p] [] fresh)))
     = Some (Request AGENT_DEFAULT false).
Proof. vm_compute. auto. Qed.

(** C5, witness: [envoy -k -p] asks with [start = false] and leaves
    the environment empty; [envoy -K] selects Kill and asks with
    [start = false]. *)
Lemma start_flag_witness :
  (exists t,
      trace (snd (run (alice (gpg_reply ENVOY_RUNNING) anywhere [])
                    [opt_k; opt_p] [] fresh))
      = Request AGENT_DEFAULT false :: t)
  /\ environ (snd (run (alice (gpg_reply ENVOY_RUNNING) anywhere [])
                     [opt_k; opt_p] [] fresh))
     = ∅
  /\ l_source {| l_source := false; l_password := None;
                 l_verb := ACTION_KILL; l_type := AGENT_DEFAULT |}
     = false.
Proof.
  pose proof (start_flag (alice (gpg_reply ENVOY_RUNNING) anywhere [])
                [opt_k; opt_p] [] ∅ []
                {| l_source := false; l_password := None;
                   l_verb := ACTION_SH_PRINT; l_type := AGENT_DEFAULT |}
                eq_refl) as (Hreq & _ & _ & Henv).
  pose proof (start_flag (alice (gpg_reply ENVOY_RUNNING) anywhere [])
                [opt_K] [] ∅ []
                {| l_source := false; l_password := None;
                   l_verb := ACTION_KILL; l_type := AGENT_DEFAULT |}
                eq_refl) as (_ & _ & Hkill & _).
  split; [exact Hreq | split].
  - apply Henv. reflexivity.
  - apply Hkill. right. reflexivity.
Defined.

(** ** C6 *)

(** C6, the code on its error paths: gpg-agent refuses the passphrase
    for AAAA ([envoy -u hunter2]), or the terminal is at its end when
    the passphrase is asked for ([envoy -u]).  The connection that
    [unlock] opened, number 1, is still open when the process exits;
    the connection of [source_env], number 0, and the connection of an
    unlock without failure are closed. *)
Theorem unlock_leaves_connection_open :
  fst (run (alice (gpg_reply ENVOY_RUNNING) anywhere ["AAAA"])
         [opt_u (Some "hunter2")] [] fresh)
  = Exited 0
  /\ conns (snd (run (alice (gpg_reply ENVOY_RUNNING) anywhere ["AAAA"])
                   [opt_u (Some "hunter2")] [] fresh))
     = {[ 1%nat ]}
  /\ fst (run (alice (gpg_reply ENVOY_RUNNING) anywhere [])
            [opt_u None] [] fresh)
     = Exited EXIT_FAILURE
  /\ conns (snd (run (alice (gpg_reply ENVOY_RUNNING) anywhere [])
                   [opt_u None] [] fresh))
     = {[ 1%nat ]}
  /\ conns (snd (run (alice (gpg_reply ENVOY_RUNNING) anywhere [])
                   [opt_u (Some "hunter2")] [] fresh))
     = ∅.
Proof. vm_compute. auto 10. Qed.

(** ** C7 *)

(** C7, witness: [envoy -p] answered Failed, and answered BadUser. *)
Lemma failed_or_baduser_aborts_witness :
  run (alice (ssh_reply ENVOY_FAILED) anywhere []) [opt_p] [] fresh
  = (Exited 1,
     set_trace
       [Request AGENT_DEFAULT true;
        Errx 1 "agent failed to start, check envoyd's log"] fresh)
  /\ run (alice (ssh_reply ENVOY_BADUSER) anywhere []) [opt_p] [] fresh
     = (Exited 1,
        set_trace
          [Request AGENT_DEFAULT true;
           Errx 1 "connection rejected, user is unauthorized to use this agent"]
          fresh).
Proof.
  pose proof (failed_or_baduser_aborts
                (alice (ssh_reply ENVOY_FAILED) anywhere []) [opt_p] [] ∅ []
                {| l_source := true; l_password := None;
                   l_verb := ACTION_SH_PRINT; l_type := AGENT_DEFAULT |}
                0 (ssh_reply ENVOY_FAILED) eq_refl eq_refl) as H1.
  pose proof (failed_or_baduser_aborts
                (alice (ssh_reply ENVOY_BADUSER) anywhere []) [opt_p] [] ∅ []
                {| l_source := true; l_password := None;
                   l_verb := ACTION_SH_PRINT; l_type := AGENT_DEFAULT |}
                0 (ssh_reply ENVOY_BADUSER) eq_refl eq_refl) as H2.
  destruct H1 as (H1 & _ & _); [discriminate|].
  destruct H2 as (_ & H2 & _); [discriminate|].
  split; [apply H1 | apply H2]; reflexivity.
Defined.

(** ** C8 *)

(** C8, witness: [envoy -a id_rsa extra_key] for alice, with id_rsa in
    the working directory. *)
Lemma add_keys_resolves_witness :
  @add_keys (alice (ssh_reply ENVOY_RUNNING) anywhere []) Z
    ["id_rsa"; "extra_key"] fresh
  = (Replaced "/usr/bin/ssh-add"
       ["/usr/bin/ssh-add"; "--"; "id_rsa"; "/home/alice/.ssh/extra_key"],
     set_trace
       [Execv "/usr/bin/ssh-add"
          ["/usr/bin/ssh-add"; "--"; "id_rsa"; "/home/alice/.ssh/extra_key"]]
       fresh).
Proof.
  pose proof (add_keys_resolves (alice (ssh_reply ENVOY_RUNNING) anywhere [])
                ["id_rsa"; "extra_key"] fresh eq_refl) as (_ & _ & H & _).
  apply (H "/home/alice"); reflexivity.
Defined.

(** ** C10 *)

(** C10, witness: the terminal delivers [pw] and a newline; it
    delivers [pw] and ends; it delivers a bare newline. *)
Lemma read_password_drops_last_byte_witness :
  fst (read_password (alice (gpg_reply ENVOY_RUNNING) anywhere [])
         (initial ∅ ["p"; "w"; "010"]%char))
  = Ret (["p"; "w"; NUL; NUL]%char, 2)
  /\ fst (read_password (alice (gpg_reply ENVOY_RUNNING) anywhere [])
            (initial ∅ ["p"; "w"]%char))
     = Ret (["p"; NUL; NUL]%char, 1)
  /\ fst (read_password (alice (gpg_reply ENVOY_RUNNING) anywhere [])
            (initial ∅ ["010"]%char))
     = Ret ([NUL; NUL], 0)
  /\ fst (read_password (alice (gpg_reply ENVOY_RUNNING) anywhere []) fresh)
     = Exit 1.
Proof.
  pose proof (fun s =>
    read_password_drops_last_byte
      (alice (gpg_reply ENVOY_RUNNING) anywhere []) s eq_refl eq_refl) as H.
  split; [|split; [|split]].
  - destruct (H (initial ∅ ["p"; "w"; "010"]%char)) as (_ & Hnl & _).
    destruct (Hnl ["p"; "w"]%char [] eq_refl) as (s' & E & _).
    + intros [Hp | [Hw | []]]; discriminate.
    + rewrite E. reflexivity.
  - destruct (H (initial ∅ ["p"; "w"]%char)) as (_ & _ & Heof & _).
    destruct (Heof ["p"]%char "w"%char eq_refl) as (s' & E & _).
    + intros [Hp | [Hw | []]]; discriminate.
    + rewrite E. reflexivity.
  - destruct (H (initial ∅ ["010"]%char)) as (_ & _ & _ & Hbare & _).
    destruct (Hbare [] eq_refl) as (s' & E & _).
    rewrite E. reflexivity.
  - destruct (H fresh) as (_ & _ & _ & _ & Hend).
    destruct (Hend eq_refl eq_refl) as (s' & E & _).
    rewrite E. reflexivity.
Defined.

(** * Further properties of the client *)

(** ** Options that end the run before the supervisor is asked *)

(** The loop passes over a prefix of options that all let it go on,
    changing only the locals. *)
Lemma getopt_loop_continues (W : world) (pre : list option_t) (l0 : locals) :
  Forall (fun o => continues W o = true) pre ->
  exists l, forall rest s,
    getopt_loop W (pre ++ rest) l0 s = getopt_loop W rest l s.
Proof.
  intros Hpre. revert l0.
  induction Hpre as [|o pre Ho Hpre IH]; intros l0.
  - exists l0. reflexivity.
  - destruct o; try discriminate Ho; cbn [app getopt_loop];
      try (match goal with
           | |- context [getopt_loop W (pre ++ _) ?l1 _] =>
               destruct (IH l1) as [l Hl]; exists l; exact Hl
           end).
    cbn in Ho. apply negb_true_iff, bool_decide_eq_false in Ho.
    destruct (IH (set_type (lookup_agent W optarg) l0)) as [l Hl].
    exists l. intros rest s.
    destruct (decide (lookup_agent W optarg = LAST_AGENT)); [contradiction|].
    apply Hl.
Qed.

Lemma run_stopped_in_options (W : world) opts keys s code s' :
  getopt_loop W opts main_locals s = (Exit code, s') ->
  run W opts keys s = (Exited code, s').
Proof.
  intros H. unfold run, main. erewrite bind_Exit by exact H. reflexivity.
Qed.

Lemma run_returned_in_options (W : world) opts keys s code s' :
  getopt_loop W opts main_locals s = (Ret (inl code), s') ->
  hooks s' = O ->
  run W opts keys s = (Exited code, s').
Proof.
  intros H Hh. unfold run, main. erewrite bind_Ret by exact H.
  unfold ret. rewrite Hh. reflexivity.
Qed.

(** X1: [-h] as the first option that ends the loop prints the usage text
    on stdout and exits 0; an unknown option prints it on stderr and
    exits 1.  Neither asks the supervisor anything, whatever options
    come before or after. *)
Theorem usage_before_request (W : world) (pre post : list option_t)
    (keys : list string) (env : gmap string string) (input : list ascii) :
  Forall (fun o => continues W o = true) pre ->
  run W (pre ++ opt_h :: post) keys (initial env input)
  = (Exited 0,
     set_trace [Stdout (usage_line W); Stdout usage_options]
       (initial env input))
  /\ run W (pre ++ opt_unknown :: post) keys (initial env input)
     = (Exited 1,
        set_trace [Stderr (usage_line W); Stderr usage_options]
          (initial env input)).
Proof.
  intros Hpre. destruct (getopt_loop_continues W pre main_locals Hpre) as [l Hl].
  split; apply run_stopped_in_options; rewrite Hl; reflexivity.
Qed.

(** X2: [-v] as the first option that ends the loop prints the program
    name and version and ends the run with status 0, without asking
    the supervisor. *)
Theorem version_before_request (W : world) (pre post : list option_t)
    (keys : list string) (env : gmap string string) (input : list ascii) :
  Forall (fun o => continues W o = true) pre ->
  run W (pre ++ opt_v :: post) keys (initial env input)
  = (Exited 0,
     set_trace
       [Stdout (program_invocation_short_name W +:+ " " +:+ ENVOY_VERSION W
                  +:+ LF)]
       (initial env input)).
Proof.
  intros Hpre. destruct (getopt_loop_continues W pre main_locals Hpre) as [l Hl].
  apply run_returned_in_options; [rewrite Hl|]; reflexivity.
Qed.

(** X3: [-t NAME] with a name that [lookup_agent] answers with
    [LAST_AGENT] is fatal: "unknown agent: NAME", exit 1, and the
    supervisor is not asked. *)
Theorem unknown_agent_is_fatal (W : world) (pre post : list option_t)
    (name : string) (keys : list string) (env : gmap string string)
    (input : list ascii) :
  Forall (fun o => continues W o = true) pre ->
  lookup_agent W name = LAST_AGENT ->
  run W (pre ++ opt_t name :: post) keys (initial env input)
  = (Exited 1,
     set_trace [Errx 1 ("unknown agent: " +:+ name)] (initial env input)).
Proof.
  intros Hpre Hname.
  destruct (getopt_loop_continues W pre main_locals Hpre) as [l Hl].
  apply run_stopped_in_options. rewrite Hl. cbn [getopt_loop].
  rewrite Hname. cbn. rewrite append_empty_r. reflexivity.
Qed.

(** ** What the options leave in the locals *)

(** A loop that runs to the end of [pre ++ rest] has run to the end of
    [pre] and then, from the locals reached there, to the end of
    [rest]. *)
Lemma getopt_loop_app (W : world) (pre rest : list option_t) (l0 l : locals)
    (s : state) :
  fst (getopt_loop W (pre ++ rest) l0 s) = Ret (inr l) ->
  exists l1,
    fst (getopt_loop W pre l0 s) = Ret (inr l1)
    /\ fst (getopt_loop W rest l1 s) = Ret (inr l).
Proof.
  revert l0. induction pre as [|o pre IH]; intros l0 H.
  - exists l0. split; [reflexivity | exact H].
  - destruct o; cbn [app getopt_loop] in H |- *;
      try (apply IH; exact H);
      try (unfold usage, printf, bind, emit, modify, exit, ret in H;
           cbn in H; discriminate).
    destruct (decide (lookup_agent W optarg = LAST_AGENT)).
    + unfold errx, bind, emit, modify, exit in H. cbn in H. discriminate.
    + apply IH; exact H.
Qed.

(** X4: each option overrides what the options before it selected: after
    the last option [o] the verb is the one [o] selects, if it selects
    one, and otherwise still the one selected before; the passphrase
    is the argument of [o] if [o] is [-u], and the agent asked for is
    the one [o] names if [o] is [-t]. *)
Theorem last_option_wins (W : world) (pre : list option_t) (o : option_t)
    (l : locals) (s : state) :
  fst (getopt_loop W (pre ++ [o]) main_locals s) = Ret (inr l) ->
  exists l1,
    fst (getopt_loop W pre main_locals s) = Ret (inr l1)
    /\ l_verb l = default (l_verb l1) (verb_of o)
    /\ (forall optarg, o = opt_u optarg -> l_password l = optarg)
    /\ (forall name, o = opt_t name -> l_type l = lookup_agent W name).
Proof.
  intros H. destruct (getopt_loop_app W pre [o] main_locals l s H)
    as (l1 & H1 & H2).
  exists l1. split; [exact H1|].
  destruct o; cbn in H2;
    try (unfold usage, printf, bind, emit, modify, exit, ret in H2;
         cbn in H2; discriminate);
    try (injection H2 as <-; cbn; repeat split; intros; congruence).
  destruct (decide (lookup_agent W optarg = LAST_AGENT)).
  - unfold errx, bind, emit, modify, exit in H2. cbn in H2. discriminate.
  - injection H2 as <-. cbn. repeat split; intros; congruence.
Qed.

(** ** The request *)

(** X5: when [envoy_agent] reports a failure the client dies of it at
    once, whatever the reply buffer holds: "failed to fetch agent",
    exit 1. *)
Theorem transport_failure_is_fatal (W : world) (opts : list option_t)
    (keys : list string) (env : gmap string string) (input : list ascii)
    (l : locals) (r : Z) (data : agent_data_t) :
  fst (getopt_loop W opts main_locals (initial env input)) = Ret (inr l) ->
  envoy_agent W (l_type l) (l_source l) = (r, data) ->
  r < 0 ->
  run W opts keys (initial env input)
  = (Exited 1,
     set_trace
       [Request (l_type l) (l_source l); Err 1 "failed to fetch agent"]
       (initial env input)).
Proof.
  intros Hopts E Hr.
  unfold run. rewrite (main_after_options W opts keys l _ Hopts).
  unfold main_body, get_agent. rewrite E.
  assert (Hlt : (r <? 0) = true) by (apply Z.ltb_lt; exact Hr).
  rewrite Hlt. reflexivity.
Qed.

(** X6: [get_agent] returns only what [main] can use: a result that is not
    negative and a reply with status Stopped, Started or Running.  The
    test for a negative result that [main] makes after the call can
    therefore never succeed. *)
Theorem get_agent_returns_usable (W : world) (id : agent) (start : bool)
    (s s' : state) (r : Z) (data : agent_data_t) :
  get_agent W id start s = (Ret (r, data), s') ->
  envoy_agent W id start = (r, data)
  /\ 0 <= r
  /\ (status data = ENVOY_STOPPED \/ status data = ENVOY_STARTED
      \/ status data = ENVOY_RUNNING)
  /\ (r <? 0) = false
  /\ s' = set_trace (trace s ++ [Request id start]) s.
Proof.
  unfold get_agent. destruct (envoy_agent W id start) as [r0 data0].
  rewrite bind_emit. unfold bind at 1.
  destruct (r0 <? 0) eqn:Hlt.
  - unfold err, bind, emit, modify, exit. cbn. discriminate.
  - unfold ret at 1. unfold bind at 1.
    destruct (status data0) eqn:Hst;
      unfold errx, bind, emit, modify, exit, ret; cbn;
      try discriminate;
      intros H; inversion H; subst;
      (split; [reflexivity|]); (split; [apply Z.ltb_ge; exact Hlt|]);
      repeat split; auto.
Qed.

(** ** The driver on a live agent, with the whole state *)

Lemma source_step_state (W : world) (b : bool) (data : agent_data_t)
    (s : state) :
  exists s',
    (if b then source_env W data else ret tt) s = (Ret tt, s')
    /\ trace s'
       = trace s ++ (if b then source_events W data (next_conn s) else [])
    /\ hooks s' = hooks s
    /\ environ s' = (if b then sourced data (environ s) else environ s)
    /\ (conns s = ∅ -> conns s' = ∅)
    /\ echo s' = echo s
    /\ stdin s' = stdin s.
Proof.
  destruct b.
  - unfold source_env, source_events, gpg_agent_connection, gpg_update_tty,
      gpg_close, setenv, sourced.
    destruct (decide (type data = AGENT_GPG_AGENT)) as [Hgpg|Hgpg].
    + destruct (gpg_connects W (gpg data)); run_monad;
        eexists; (split; [reflexivity|]); cbn;
        rewrite <- !app_assoc; repeat split; auto.
      intros Hc. rewrite Hc. apply set_eq. intros x. set_unfold. tauto.
    + run_monad. eexists; (split; [reflexivity|]); cbn. repeat split; auto.
  - exists s. unfold ret. rewrite app_nil_r. repeat split; auto.
Qed.

(** On a reply with status Started or Running, the state in which
    [main] reaches its switch. *)
Lemma main_body_live (W : world) (l : locals) (keys : list string)
    (env : gmap string string) (input : list ascii) (r : Z)
    (data : agent_data_t) :
  envoy_agent W (l_type l) (l_source l) = (r, data) ->
  0 <= r ->
  status data = ENVOY_STARTED \/ status data = ENVOY_RUNNING ->
  exists s1,
    main_body W l keys (initial env input)
    = (dispatch W l data keys ;;; ret 0) s1
    /\ trace s1 = prelude_events W l data
    /\ hooks s1 = O
    /\ environ s1 = (if l_source l then sourced data env else env)
    /\ conns s1 = ∅
    /\ echo s1 = true
    /\ stdin s1 = input.
Proof.
  intros E Hr Hst. unfold main_body.
  erewrite bind_Ret by (apply (get_agent_ok W _ _ r data); auto).
  unfold main_after_agent.
  not_negative r Hr.
  rewrite Hlt. unfold bind at 1. unfold ret at 1.
  destruct (decide (status data = ENVOY_STOPPED)) as [Hs|_].
  { destruct Hst as [Hst|Hst]; rewrite Hst in Hs; discriminate. }
  destruct (source_step_state W (l_source l) data
              (set_trace (trace (initial env input)
                            ++ [Request (l_type l) (l_source l)])
                 (initial env input)))
    as (s' & Hsrc & Htr & Hh & Henv & Hconns & Hecho & Hstdin).
  erewrite bind_Ret by exact Hsrc.
  erewrite bind_Ret by apply print_step.
  eexists. split; [reflexivity|]. cbn. rewrite Htr. cbn.
  repeat split; auto.
Qed.

Lemma run_of_main_body (W : world) opts keys env input l o s' :
  fst (getopt_loop W opts main_locals (initial env input)) = Ret (inr l) ->
  main_body W l keys (initial env input) = (o, s') ->
  hooks s' = O ->
  run W opts keys (initial env input)
  = (match o with
     | Ret code | Exit code => Exited code
     | Replaced path argv => Execed path argv
     end, s').
Proof.
  intros Hopts Hm Hh. unfold run.
  rewrite (main_after_options W opts keys l _ Hopts), Hm.
  destruct o; [rewrite Hh|..]; reflexivity.
Qed.

(** ** Kill, Clear, List and ForceAdd *)

(** X7: with the verb Kill on a live agent the client asks with
    [start = false], sends SIGTERM to the pid of the reply, and exits
    0; it does nothing else: the environment is not touched and
    nothing is printed. *)
Theorem kill_sends_sigterm (W : world) (opts : list option_t)
    (keys : list string) (env : gmap string string) (input : list ascii)
    (l : locals) (r : Z) (data : agent_data_t) :
  fst (getopt_loop W opts main_locals (initial env input)) = Ret (inr l) ->
  l_verb l = ACTION_KILL ->
  envoy_agent W (l_type l) (l_source l) = (r, data) ->
  0 <= r ->
  status data = ENVOY_STARTED \/ status data = ENVOY_RUNNING ->
  run W opts keys (initial env input)
  = (Exited 0,
     set_trace [Request (l_type l) false; Kill (pid data) SIGTERM]
       (initial env input)).
Proof.
  intros Hopts Hv E Hr Hst.
  assert (Hsrc : l_source l = false).
  { apply (getopt_loop_source W opts main_locals l _ Hopts).
    - cbn. intuition discriminate.
    - right. exact Hv. }
  eapply run_of_main_body with (o := Ret 0); [exact Hopts| |reflexivity].
  unfold main_body.
  erewrite bind_Ret by (apply (get_agent_ok W _ _ r data); auto).
  unfold main_after_agent, dispatch. not_negative r Hr.
  rewrite Hlt, Hv, Hsrc.
  destruct Hst as [Hst|Hst]; rewrite Hst; reflexivity.
Qed.

(** X8: with the verb Clear on a live agent the client asks with
    [start = false]; it sends SIGHUP to a gpg-agent and exits 0, and
    for any other agent it sends no signal and dies with "only
    gpg-agent supports this operation". *)
Theorem clear_sends_sighup_to_gpg_agent_only (W : world)
    (opts : list option_t) (keys : list string) (env : gmap string string)
    (input : list ascii) (l : locals) (r : Z) (data : agent_data_t) :
  fst (getopt_loop W opts main_locals (initial env input)) = Ret (inr l) ->
  l_verb l = ACTION_CLEAR ->
  envoy_agent W (l_type l) (l_source l) = (r, data) ->
  0 <= r ->
  status data = ENVOY_STARTED \/ status data = ENVOY_RUNNING ->
  run W opts keys (initial env input)
  = if decide (type data = AGENT_GPG_AGENT)
    then (Exited 0,
          set_trace [Request (l_type l) false; Kill (pid data) SIGHUP]
            (initial env input))
    else (Exited 1,
          set_trace
            [Request (l_type l) false;
             Errx 1 "only gpg-agent supports this operation"]
            (initial env input)).
Proof.
  intros Hopts Hv E Hr Hst.
  assert (Hsrc : l_source l = false).
  { apply (getopt_loop_source W opts main_locals l _ Hopts).
    - cbn. intuition discriminate.
    - left. exact Hv. }
  unfold run. rewrite (main_after_options W opts keys l _ Hopts).
  unfold main_body.
  erewrite bind_Ret by (apply (get_agent_ok W _ _ r data); auto).
  unfold main_after_agent, dispatch. not_negative r Hr.
  rewrite Hlt, Hv, Hsrc.
  destruct (decide (type data = AGENT_GPG_AGENT));
    destruct Hst as [Hst|Hst]; rewrite Hst; reflexivity.
Qed.

(** X9: with the verb List on a live agent the client, after the prelude,
    execs [ssh-add -l] through the search path; when that fails it
    dies with "failed to launch ssh-add". *)
Theorem list_execs_ssh_add (W : world) (opts : list option_t)
    (keys : list string) (env : gmap string string) (input : list ascii)
    (l : locals) (r : Z) (data : agent_data_t) :
  fst (getopt_loop W opts main_locals (initial env input)) = Ret (inr l) ->
  l_verb l = ACTION_LIST ->
  envoy_agent W (l_type l) (l_source l) = (r, data) ->
  0 <= r ->
  status data = ENVOY_STARTED \/ status data = ENVOY_RUNNING ->
  fst (run W opts keys (initial env input))
  = (if execlp_succeeds W "ssh-add" ["ssh-add"; "-l"]
     then Execed "ssh-add" ["ssh-add"; "-l"] else Exited 1)
  /\ trace (snd (run W opts keys (initial env input)))
     = prelude_events W l data
       ++ Execlp "ssh-add" ["ssh-add"; "-l"]
       :: (if execlp_succeeds W "ssh-add" ["ssh-add"; "-l"]
           then [] else [Err 1 "failed to launch ssh-add"]).
Proof.
  intros Hopts Hv E Hr Hst.
  destruct (main_body_live W l keys env input r data E Hr Hst)
    as (s1 & Hmain & Htr & Hh & _).
  unfold dispatch in Hmain. rewrite Hv in Hmain.
  destruct (execlp_succeeds W "ssh-add" ["ssh-add"; "-l"]) eqn:Hexec.
  - assert (Hm : main_body W l keys (initial env input)
                 = (Replaced "ssh-add" ["ssh-add"; "-l"],
                    set_trace
                      (trace s1 ++ [Execlp "ssh-add" ["ssh-add"; "-l"]]) s1)).
    { rewrite Hmain. unfold execlp, bind, emit, modify. cbn. rewrite Hexec.
      reflexivity. }
    rewrite (run_of_main_body W opts keys env input l _ _ Hopts Hm Hh).
    cbn. rewrite Htr. auto.
  - assert (Hm : main_body W l keys (initial env input)
                 = (Exit 1,
                    set_trace
                      (trace s1 ++ [Execlp "ssh-add" ["ssh-add"; "-l"];
                                    Err 1 "failed to launch ssh-add"]) s1)).
    { rewrite Hmain. unfold execlp, err, exit, bind, emit, modify, ret. cbn.
      rewrite Hexec. cbn. rewrite Hh. cbn. rewrite <- app_assoc.
      reflexivity. }
    rewrite (run_of_main_body W opts keys env input l _ _ Hopts Hm Hh).
    cbn. rewrite Htr. auto.
Qed.

Lemma add_keys_exec_fails {A} (W : world) (keys : list string) (home : string)
    (s : state) :
  getpwuid W = Some {| pw_dir := Some home |} ->
  execv_succeeds W "/usr/bin/ssh-add" (ssh_add_argv W home keys) = false ->
  hooks s = O ->
  @add_keys W A keys s
  = (Exit 1,
     set_trace
       (trace s ++ [Execv "/usr/bin/ssh-add" (ssh_add_argv W home keys);
                    Err 1 "failed to launch ssh-add"]) s).
Proof.
  intros Hpw Hexec Hh. unfold add_keys. rewrite Hpw.
  assert (Hmap : map (get_key_path W home) keys
                 = map (resolved_key W home) keys).
  { apply map_ext. intros k. apply get_key_path_resolved. }
  rewrite Hmap. unfold ssh_add_argv in *. simpl app in *.
  unfold execv, err, exit, bind, emit, modify, ret. simpl.
  rewrite Hexec. simpl. rewrite Hh. simpl. rewrite <- app_assoc.
  reflexivity.
Qed.

(** X10: with the verb ForceAdd on a live agent the client execs
    /usr/bin/ssh-add on the resolved keys after the prelude, whatever
    the status and the type of the agent; when the exec fails it dies
    with "failed to launch ssh-add". *)
Theorem force_add_execs_unconditionally (W : world) (opts : list option_t)
    (keys : list string) (env : gmap string string) (input : list ascii)
    (l : locals) (r : Z) (data : agent_data_t) (home : string) :
  fst (getopt_loop W opts main_locals (initial env input)) = Ret (inr l) ->
  l_verb l = ACTION_FORCE_ADD ->
  envoy_agent W (l_type l) (l_source l) = (r, data) ->
  0 <= r ->
  status data = ENVOY_STARTED \/ status data = ENVOY_RUNNING ->
  getpwuid W = Some {| pw_dir := Some home |} ->
  fst (run W opts keys (initial env input))
  = (if execv_succeeds W "/usr/bin/ssh-add" (ssh_add_argv W home keys)
     then Execed "/usr/bin/ssh-add" (ssh_add_argv W home keys)
     else Exited 1)
  /\ trace (snd (run W opts keys (initial env input)))
     = prelude_events W l data
       ++ Execv "/usr/bin/ssh-add" (ssh_add_argv W home keys)
       :: (if execv_succeeds W "/usr/bin/ssh-add" (ssh_add_argv W home keys)
           then [] else [Err 1 "failed to launch ssh-add"]).
Proof.
  intros Hopts Hv E Hr Hst Hpw.
  destruct (main_body_live W l keys env input r data E Hr Hst)
    as (s1 & Hmain & Htr & Hh & _).
  unfold dispatch in Hmain. rewrite Hv in Hmain.
  destruct (execv_succeeds W "/usr/bin/ssh-add" (ssh_add_argv W home keys))
    eqn:Hexec.
  - erewrite bind_Replaced in Hmain by (apply add_keys_execs; eassumption).
    rewrite (run_of_main_body W opts keys env input l _ _ Hopts Hmain Hh).
    cbn. rewrite Htr. auto.
  - erewrite bind_Exit in Hmain
      by (apply add_keys_exec_fails; eassumption).
    rewrite (run_of_main_body W opts keys env input l _ _ Hopts Hmain Hh).
    cbn. rewrite Htr. auto.
Qed.

(** ** The environment and the connections at the end of a run *)

(** X11: when the request was made with [start = true] and the agent is
    live, the process ends, or execs, in the environment it started
    with except that SSH_AUTH_SOCK is the socket of the reply: whatever
    the verb, and however the run ends. *)
Theorem environment_after_sourcing (W : world) (opts : list option_t)
    (keys : list string) (env : gmap string string) (input : list ascii)
    (l : locals) (r : Z) (data : agent_data_t) :
  fst (getopt_loop W opts main_locals (initial env input)) = Ret (inr l) ->
  l_source l = true ->
  envoy_agent W (l_type l) (l_source l) = (r, data) ->
  0 <= r ->
  status data = ENVOY_STARTED \/ status data = ENVOY_RUNNING ->
  environ (snd (run W opts keys (initial env input)))
  = <["SSH_AUTH_SOCK" := sock data]> env.
Proof.
  intros Hopts Hsrc E Hr Hst.
  destruct (main_body_live W l keys env input r data E Hr Hst)
    as (s1 & Hmain & _ & _ & Henv & _).
  rewrite Hsrc in Henv.
  assert (H1 : same_environ s1 (snd (main W opts keys (initial env input)))).
  { rewrite (main_after_options W opts keys l _ Hopts), Hmain.
    apply (respects_bind same_environ); try reflexivity.
    - exact same_environ_trans.
    - apply (respects_dispatch W same_environ); try reflexivity.
      exact same_environ_trans.
    - intros _ s. reflexivity. }
  assert (H2 : same_environ (snd (main W opts keys (initial env input)))
                 (snd (run W opts keys (initial env input)))).
  { apply (respects_run_after_main W same_environ); try reflexivity.
    exact same_environ_trans. }
  rewrite (same_environ_trans _ _ _ H1 H2). exact Henv.
Qed.

(** Every verb but Unlock, over a relation that [set_conns] need not
    respect: apart from [source_env], only the unlock flow opens a
    connection. *)
Section NoUnlock.

Variable W : world.
Variable R : state -> state -> Prop.

Hypothesis R_refl : forall s, R s s.
Hypothesis R_trans : forall a b c, R a b -> R b c -> R a c.
Hypothesis R_emit : forall s e, R s (set_trace (trace s ++ [e]) s).
Hypothesis R_echo : forall s b, R s (set_echo b s).

Lemma respects_dispatch_no_unlock l data keys :
  l_verb l <> ACTION_UNLOCK -> respects R (dispatch W l data keys).
Proof.
  intros Hv. unfold dispatch, kill.
  destruct (l_verb l); try contradiction;
    repeat first
      [ apply (respects_ret R R_refl)
      | apply (respects_emit R R_emit)
      | apply (@respects_add_keys W R R_refl R_trans R_emit R_echo)
      | apply (respects_execlp W R R_refl R_trans R_emit)
      | apply (@respects_errx W R R_refl R_trans R_emit R_echo)
      | apply (@respects_err W R R_refl R_trans R_emit R_echo)
      | apply (respects_bind R R_trans); [|intros ?]
      | apply (respects_if R)
      | apply (respects_decide R) ].
Qed.

Lemma respects_main_body_no_unlock l keys :
  (forall data, respects R (source_env W data)) ->
  l_verb l <> ACTION_UNLOCK ->
  respects R (main_body W l keys).
Proof.
  intros Hsrc Hv. unfold main_body.
  apply (respects_bind R R_trans);
    [apply (respects_get_agent W R R_refl R_trans R_emit R_echo)|].
  intros [r data]. unfold main_after_agent.
  apply (respects_bind R R_trans).
  { apply (respects_if R);
      [apply (@respects_errx W R R_refl R_trans R_emit R_echo)
      |apply (respects_ret R R_refl)]. }
  intros _. apply (respects_decide R); [apply (respects_ret R R_refl)|].
  apply (respects_bind R R_trans).
  { destruct (l_source l); [apply Hsrc | apply (respects_ret R R_refl)]. }
  intros _. apply (respects_bind R R_trans).
  { apply (respects_decide R);
      [apply (respects_print_sh_env R R_refl R_trans R_emit)|].
    apply (respects_decide R);
      [apply (respects_print_fish_env R R_refl R_trans R_emit)
      |apply (respects_ret R R_refl)]. }
  intros _. apply (respects_bind R R_trans);
    [apply respects_dispatch_no_unlock; exact Hv
    |intros _; apply (respects_ret R R_refl)].
Qed.

End NoUnlock.

Lemma source_env_none_left_open (W : world) (data : agent_data_t) :
  respects none_left_open (source_env W data).
Proof.
  intros s Hc.
  destruct (source_step_state W true data s) as (s' & E & _ & _ & _ & H & _).
  cbv iota in E. rewrite E. apply H, Hc.
Qed.

(** X12: only the verb Unlock can leave a connection to gpg-agent open: a
    run with any other verb ends, or execs, with none open, whatever
    the supervisor answers. *)
Theorem no_connection_left_without_unlock (W : world) (opts : list option_t)
    (keys : list string) (env : gmap string string) (input : list ascii)
    (l : locals) :
  fst (getopt_loop W opts main_locals (initial env input)) = Ret (inr l) ->
  l_verb l <> ACTION_UNLOCK ->
  conns (snd (run W opts keys (initial env input))) = ∅.
Proof.
  intros Hopts Hv.
  assert (Hrefl : forall s, none_left_open s s) by (intros s H; exact H).
  assert (Htrans : forall a b c,
             none_left_open a b -> none_left_open b c -> none_left_open a c)
    by (intros a b c Hab Hbc H; auto).
  assert (Hemit : forall s e,
             none_left_open s (set_trace (trace s ++ [e]) s))
    by (intros s e H; exact H).
  assert (Hecho : forall s b, none_left_open s (set_echo b s))
    by (intros s b H; exact H).
  assert (H1 : none_left_open (initial env input)
                 (snd (main W opts keys (initial env input)))).
  { rewrite (main_after_options W opts keys l _ Hopts).
    apply (respects_main_body_no_unlock W none_left_open); auto.
    apply source_env_none_left_open. }
  assert (H2 : none_left_open (snd (main W opts keys (initial env input)))
                 (snd (run W opts keys (initial env input)))).
  { apply (respects_run_after_main W none_left_open); auto. }
  apply H2, H1. reflexivity.
Qed.

(** ** The terminal *)

(** X13: [read_password] leaves the echo flag of the terminal as it found
    it, on every path: when it returns, and when it dies (of a terminal
    that cannot be read or set, or of the end of the input), in which
    case the exit hook has run. *)
Theorem read_password_restores_echo (W : world) (s : state) :
  hooks s = O ->
  echo (snd (read_password W s)) = echo s.
Proof.
  intros Hh.
  unfold read_password, fputs_stdout, tcgetattr_old, atexit_term_cleanup,
    tcsetattr, getline, err, errx, exit.
  destruct (tcgetattr_ok W) eqn:Hget.
  - destruct (tcsetattr_ok W) eqn:Hset.
    + run_monad. destruct (stdin s) as [|c i] eqn:Hs.
      * cbn. rewrite Hh. cbn.
        unfold term_cleanup, tcsetattr. run_monad. rewrite Hset. reflexivity.
      * destruct (read_line (c :: i)) as [line rest] eqn:Hline.
        assert (Hlt : (Z.of_nat (length line) <? 0) = false)
          by (apply Z.ltb_ge; lia).
        cbn. rewrite Hlt. reflexivity.
    + run_monad. rewrite Hh. cbn.
      unfold term_cleanup, tcsetattr. run_monad. rewrite Hset. reflexivity.
  - run_monad. rewrite Hh. reflexivity.
Qed.

(** X14: the passphrase is read only from a terminal whose echo could be
    switched off: when the terminal attributes cannot be read, or
    cannot be set, [read_password] dies with the matching diagnostic
    and has consumed no input. *)
Theorem read_password_needs_terminal (W : world) (s : state) :
  hooks s = O ->
  (tcgetattr_ok W = false ->
   read_password W s
   = (Exit 1,
      set_trace
        (trace s ++ [Stdout "Password: ";
                     Err 1 "failed to get terminal attributes"]) s))
  /\ (tcgetattr_ok W = true -> tcsetattr_ok W = false ->
      fst (read_password W s) = Exit 1
      /\ trace (snd (read_password W s))
         = trace s ++ [Stdout "Password: "; Atexit; Tcsetattr false;
                       Err 1 "failed to set terminal attributes";
                       Tcsetattr (echo s)]
      /\ stdin (snd (read_password W s)) = stdin s).
Proof.
  intros Hh.
  unfold read_password, fputs_stdout, tcgetattr_old, atexit_term_cleanup,
    tcsetattr, getline, err, errx, exit.
  split.
  - intros Hget. rewrite Hget. run_monad. rewrite Hh. cbn.
    rewrite <- app_assoc. reflexivity.
  - intros Hget Hset. rewrite Hget, Hset. run_monad. rewrite Hh. cbn.
    unfold term_cleanup, tcsetattr. run_monad. rewrite Hset. cbn.
    rewrite <- !app_assoc. auto.
Qed.

(** ** The unlock flow, its first steps *)

Lemma bind_ret {A B} (a : A) (f : A -> M B) (s : state) :
  bind (ret a) f s = f a s.
Proof. reflexivity. Qed.

Lemma gpg_connection_opens (W : world) (path : string) (s : state) :
  gpg_connects W path = true ->
  gpg_agent_connection W path s
  = (Ret (Some (next_conn s)),
     set_conns ({[ next_conn s ]} ∪ conns s) (S (next_conn s))
       (set_trace (trace s ++ [GpgOpen path (Some (next_conn s))]) s)).
Proof.
  intros Hc. unfold gpg_agent_connection. rewrite Hc. reflexivity.
Qed.

(** X15: when gpg-agent cannot be reached [unlock] dies with "failed to
    open connection to gpg-agent" before anything else: no passphrase
    is asked for, even when none was given, and gpg-agent is sent
    nothing. *)
Theorem unlock_needs_connection (W : world) (data : agent_data_t)
    (password : option string) (s : state) :
  gpg_connects W (gpg data) = false ->
  hooks s = O ->
  unlock W data password s
  = (Exit 1,
     set_trace
       (trace s ++ [GpgOpen (gpg data) None;
                    Err 1 "failed to open connection to gpg-agent"]) s).
Proof.
  intros Hc Hh. unfold unlock, gpg_agent_connection, err, exit. rewrite Hc.
  run_monad. rewrite Hh. cbn. rewrite <- app_assoc. reflexivity.
Qed.

(** X16: without a passphrase on the command line [unlock] asks for one
    after connecting, and what it presets for every key is the line
    typed, without its newline. *)
Theorem unlock_presets_typed_passphrase (W : world) (data : agent_data_t)
    (s : state) (body more : list ascii) :
  gpg_connects W (gpg data) = true ->
  tcgetattr_ok W = true -> tcsetattr_ok W = true ->
  stdin s = body ++ "010"%char :: more ->
  ~ In "010"%char body -> ~ In NUL body ->
  Forall (preset_ok W (string_of_list_ascii body)) (gpg_keyinfo_list W) ->
  let agent := Some (next_conn s) in
  fst (unlock W data None s) = Ret 0
  /\ trace (snd (unlock W data None s))
     = trace s ++ [GpgOpen (gpg data) agent] ++ prompt_events (echo s)
         ++ [GpgKeyinfo agent]
         ++ map (fun f => GpgPreset agent f (-1) (string_of_list_ascii body))
              (gpg_keyinfo_list W)
         ++ [GpgClose agent]
  /\ stdin (snd (unlock W data None s)) = more.
Proof.
  intros Hc Hget Hset Hin Hnl Hnul Hok agent. subst agent.
  unfold unlock.
  erewrite bind_Ret by (apply gpg_connection_opens; exact Hc).
  cbv beta iota. rewrite bind_ret.
  set (s0 := set_conns _ _ _).
  destruct (read_password_reads W s0 body "010"%char more Hget Hset)
    as (s1 & E & Hrest & Hecho & Htr).
  { subst s0. cbn. rewrite Hin. destruct body; discriminate. }
  { subst s0. cbn. rewrite Hin. apply read_line_newline, Hnl. }
  rewrite bind_assoc. erewrite bind_Ret by exact E.
  cbv beta iota. rewrite bind_ret.
  rewrite (c_str_app_NUL body [NUL] Hnul).
  unfold gpg_keyinfo. rewrite bind_assoc, bind_emit, bind_ret.
  erewrite bind_Ret by (apply unlock_loop_all_ok; exact Hok).
  unfold gpg_close. run_monad. rewrite Htr, Hrest. subst s0. cbn.
  rewrite <- !app_assoc. auto.
Qed.

(** ** What reaches stdout *)

Lemma append_assoc (a b c : string) : (a +:+ b) +:+ c = a +:+ (b +:+ c).
Proof.
  induction a as [|x a IH]; [reflexivity|].
  change (String x ((a +:+ b) +:+ c) = String x (a +:+ (b +:+ c))).
  f_equal. exact IH.
Qed.

Lemma stdout_of_app (t t' : list event) :
  stdout_of (t ++ t') = stdout_of t +:+ stdout_of t'.
Proof.
  induction t as [|e t IH]; [reflexivity|].
  destruct e; cbn [app stdout_of]; try exact IH.
  rewrite IH, append_assoc. reflexivity.
Qed.

Lemma stdout_of_source_events (W : world) (data : agent_data_t) (n : nat) :
  stdout_of (source_events W data n) = EmptyString.
Proof.
  unfold source_events.
  destruct (decide (type data = AGENT_GPG_AGENT)); reflexivity.
Qed.

(** X17: with the verb ShPrint or FishPrint on a live agent, what the whole
    run writes to stdout is the export lines of the reply and nothing
    else, so that the output can be given to [eval]; the run exits
    0. *)
Theorem print_writes_only_export_lines (W : world) (opts : list option_t)
    (keys : list string) (env : gmap string string) (input : list ascii)
    (l : locals) (r : Z) (data : agent_data_t) :
  fst (getopt_loop W opts main_locals (initial env input)) = Ret (inr l) ->
  l_verb l = ACTION_SH_PRINT \/ l_verb l = ACTION_FISH_PRINT ->
  envoy_agent W (l_type l) (l_source l) = (r, data) ->
  0 <= r ->
  status data = ENVOY_STARTED \/ status data = ENVOY_RUNNING ->
  fst (run W opts keys (initial env input)) = Exited 0
  /\ stdout_of (trace (snd (run W opts keys (initial env input))))
     = stdout_of
         (map (fun nv => Stdout ((if decide (l_verb l = ACTION_SH_PRINT)
                                  then sh_line else fish_line) nv))
            (exported data)).
Proof.
  intros Hopts Hv E Hr Hst.
  destruct (main_body_live W l keys env input r data E Hr Hst)
    as (s1 & Hmain & Htr & Hh & _).
  assert (Hd : dispatch W l data keys s1 = (Ret tt, s1)).
  { unfold dispatch. destruct Hv as [-> | ->]; reflexivity. }
  erewrite bind_Ret in Hmain by exact Hd.
  rewrite (run_of_main_body W opts keys env input l _ _ Hopts Hmain Hh).
  split; [reflexivity|]. cbn [snd]. rewrite Htr. unfold prelude_events.
  rewrite !stdout_of_app.
  assert (Hsrc : stdout_of (if l_source l then source_events W data 0 else [])
                 = EmptyString).
  { destruct (l_source l); [apply stdout_of_source_events | reflexivity]. }
  rewrite Hsrc. cbn [stdout_of String.append].
  destruct Hv as [Hv | Hv]; rewrite Hv; reflexivity.
Qed.

(** * The further properties on concrete runs *)

Lemma continues_print_then_agent :
  Forall (fun o => continues (alice (gpg_reply ENVOY_RUNNING) anywhere []) o
                   = true)
    [opt_p; opt_t "gpg-agent"].
Proof. repeat constructor. Qed.

(** [envoy -p -t gpg-agent -h -K] and [envoy -p -t gpg-agent -x -K]. *)
Lemma usage_before_request_witness :
  fst (run (alice (gpg_reply ENVOY_RUNNING) anywhere [])
         ([opt_p; opt_t "gpg-agent"] ++ opt_h :: [opt_K]) [] fresh)
  = Exited 0
  /\ fst (run (alice (gpg_reply ENVOY_RUNNING) anywhere [])
            ([opt_p; opt_t "gpg-agent"] ++ opt_unknown :: [opt_K]) [] fresh)
     = Exited 1.
Proof.
  destruct (usage_before_request (alice (gpg_reply ENVOY_RUNNING) anywhere [])
              [opt_p; opt_t "gpg-agent"] [opt_K] [] ∅ []
              continues_print_then_agent) as [Hh Hu].
  split; [exact (f_equal fst Hh) | exact (f_equal fst Hu)].
Defined.

(** [envoy -p -t gpg-agent -v -K]. *)
Lemma version_before_request_witness :
  run (alice (gpg_reply ENVOY_RUNNING) anywhere [])
    ([opt_p; opt_t "gpg-agent"] ++ opt_v :: [opt_K]) [] fresh
  = (Exited 0, set_trace [Stdout ("envoy v7" +:+ LF)] fresh).
Proof.
  apply (version_before_request (alice (gpg_reply ENVOY_RUNNING) anywhere [])
           [opt_p; opt_t "gpg-agent"] [opt_K] [] ∅ []
           continues_print_then_agent).
Defined.

(** [envoy -p -t gpg-agent -t pageant -K]. *)
Lemma unknown_agent_is_fatal_witness :
  run (alice (gpg_reply ENVOY_RUNNING) anywhere [])
    ([opt_p; opt_t "gpg-agent"] ++ opt_t "pageant" :: [opt_K]) [] fresh
  = (Exited 1, set_trace [Errx 1 "unknown agent: pageant"] fresh).
Proof.
  apply (unknown_agent_is_fatal (alice (gpg_reply ENVOY_RUNNING) anywhere [])
           [opt_p; opt_t "gpg-agent"] [opt_K] "pageant" [] ∅ []
           continues_print_then_agent eq_refl).
Defined.

(** [envoy -a -u hunter2 -l]: the verb is List, the passphrase stays. *)
Lemma last_option_wins_witness :
  exists l1,
    fst (getopt_loop (alice (ssh_reply ENVOY_RUNNING) anywhere [])
           [opt_a; opt_u (Some "hunter2")] main_locals fresh)
    = Ret (inr l1)
    /\ ACTION_LIST = default (l_verb l1) (verb_of opt_l).
Proof.
  destruct (last_option_wins (alice (ssh_reply ENVOY_RUNNING) anywhere [])
              [opt_a; opt_u (Some "hunter2")] opt_l
              {| l_source := true; l_password := Some "hunter2";
                 l_verb := ACTION_LIST; l_type := AGENT_DEFAULT |}
              fresh eq_refl) as (l1 & H1 & H2 & _).
  exists l1. split; [exact H1 | exact H2].
Defined.

(** [envoy -p] when the supervisor cannot be reached. *)
Lemma transport_failure_is_fatal_witness :
  run (host (-1) (ssh_reply ENVOY_RUNNING) anywhere [] true true true)
    [opt_p] [] fresh
  = (Exited 1,
     set_trace [Request AGENT_DEFAULT true; Err 1 "failed to fetch agent"]
       fresh).
Proof.
  apply (transport_failure_is_fatal
           (host (-1) (ssh_reply ENVOY_RUNNING) anywhere [] true true true)
           [opt_p] [] ∅ []
           {| l_source := true; l_password := None;
              l_verb := ACTION_SH_PRINT; l_type := AGENT_DEFAULT |}
           (-1) (ssh_reply ENVOY_RUNNING) eq_refl eq_refl eq_refl).
Defined.

(** The request of [envoy] answered by a running ssh-agent. *)
Lemma get_agent_returns_usable_witness :
  0 <= 0
  /\ (status (ssh_reply ENVOY_RUNNING) = ENVOY_STOPPED
      \/ status (ssh_reply ENVOY_RUNNING) = ENVOY_STARTED
      \/ status (ssh_reply ENVOY_RUNNING) = ENVOY_RUNNING).
Proof.
  destruct (get_agent_returns_usable
              (alice (ssh_reply ENVOY_RUNNING) anywhere [])
              AGENT_DEFAULT true fresh
              (set_trace [Request AGENT_DEFAULT true] fresh)
              0 (ssh_reply ENVOY_RUNNING) eq_refl) as (_ & Hr & Hst & _).
  split; assumption.
Defined.

(** [envoy -K] on a running gpg-agent. *)
Lemma kill_sends_sigterm_witness :
  run (alice (gpg_reply ENVOY_RUNNING) anywhere []) [opt_K] [] fresh
  = (Exited 0,
     set_trace [Request AGENT_DEFAULT false; Kill 9000 SIGTERM] fresh).
Proof.
  apply (kill_sends_sigterm (alice (gpg_reply ENVOY_RUNNING) anywhere [])
           [opt_K] [] ∅ []
           {| l_source := false; l_password := None;
              l_verb := ACTION_KILL; l_type := AGENT_DEFAULT |}
           0 (gpg_reply ENVOY_RUNNING));
    first [ reflexivity | discriminate | right; reflexivity ].
Defined.

(** [envoy -k] on a running gpg-agent, and on a running ssh-agent. *)
Lemma clear_sends_sighup_to_gpg_agent_only_witness :
  run (alice (gpg_reply ENVOY_RUNNING) anywhere []) [opt_k] [] fresh
  = (Exited 0,
     set_trace [Request AGENT_DEFAULT false; Kill 9000 SIGHUP] fresh)
  /\ fst (run (alice (ssh_reply ENVOY_RUNNING) anywhere []) [opt_k] [] fresh)
     = Exited 1.
Proof.
  split.
  - apply (clear_sends_sighup_to_gpg_agent_only
             (alice (gpg_reply ENVOY_RUNNING) anywhere [])
             [opt_k] [] ∅ []
             {| l_source := false; l_password := None;
                l_verb := ACTION_CLEAR; l_type := AGENT_DEFAULT |}
             0 (gpg_reply ENVOY_RUNNING));
      first [ reflexivity | discriminate | right; reflexivity ].
  - unfold fresh.
    rewrite (clear_sends_sighup_to_gpg_agent_only
               (alice (ssh_reply ENVOY_RUNNING) anywhere [])
               [opt_k] [] ∅ []
               {| l_source := false; l_password := None;
                  l_verb := ACTION_CLEAR; l_type := AGENT_DEFAULT |}
               0 (ssh_reply ENVOY_RUNNING));
      first [ reflexivity | discriminate | right; reflexivity ].
Defined.

(** [envoy -l] on a running ssh-agent, with ssh-add on the search path
    and without. *)
Lemma list_execs_ssh_add_witness :
  fst (run (alice (ssh_reply ENVOY_RUNNING) anywhere []) [opt_l] [] fresh)
  = Execed "ssh-add" ["ssh-add"; "-l"]
  /\ fst (run (host 0 (ssh_reply ENVOY_RUNNING) anywhere [] false true true)
            [opt_l] [] fresh)
     = Exited 1.
Proof.
  split.
  - apply (list_execs_ssh_add (alice (ssh_reply ENVOY_RUNNING) anywhere [])
             [opt_l] [] ∅ []
             {| l_source := true; l_password := None;
                l_verb := ACTION_LIST; l_type := AGENT_DEFAULT |}
             0 (ssh_reply ENVOY_RUNNING));
      first [ reflexivity | discriminate | right; reflexivity ].
  - apply (list_execs_ssh_add
             (host 0 (ssh_reply ENVOY_RUNNING) anywhere [] false true true)
             [opt_l] [] ∅ []
             {| l_source := true; l_password := None;
                l_verb := ACTION_LIST; l_type := AGENT_DEFAULT |}
             0 (ssh_reply ENVOY_RUNNING));
      first [ reflexivity | discriminate | right; reflexivity ].
Defined.

(** [envoy -a id_rsa extra_key] on a running gpg-agent. *)
Lemma force_add_execs_unconditionally_witness :
  fst (run (alice (gpg_reply ENVOY_RUNNING) anywhere []) [opt_a]
         ["id_rsa"; "extra_key"] fresh)
  = Execed "/usr/bin/ssh-add"
      ["/usr/bin/ssh-add"; "--"; "id_rsa"; "/home/alice/.ssh/extra_key"].
Proof.
  apply (force_add_execs_unconditionally
           (alice (gpg_reply ENVOY_RUNNING) anywhere [])
           [opt_a] ["id_rsa"; "extra_key"] ∅ []
           {| l_source := true; l_password := None;
              l_verb := ACTION_FORCE_ADD; l_type := AGENT_DEFAULT |}
           0 (gpg_reply ENVOY_RUNNING) "/home/alice");
    first [ reflexivity | discriminate | right; reflexivity ].
Defined.

(** [envoy -l] on a running ssh-agent. *)
Lemma environment_after_sourcing_witness :
  environ (snd (run (alice (ssh_reply ENVOY_RUNNING) anywhere [])
                  [opt_l] [] fresh))
  = <["SSH_AUTH_SOCK" := "/run/user/1000/ssh-XXXX/agent.4320"]> ∅.
Proof.
  apply (environment_after_sourcing
           (alice (ssh_reply ENVOY_RUNNING) anywhere [])
           [opt_l] [] ∅ []
           {| l_source := true; l_password := None;
              l_verb := ACTION_LIST; l_type := AGENT_DEFAULT |}
           0 (ssh_reply ENVOY_RUNNING));
    first [ reflexivity | discriminate | right; reflexivity ].
Defined.

(** [envoy -f] on a running gpg-agent. *)
Lemma no_connection_left_without_unlock_witness :
  conns (snd (run (alice (gpg_reply ENVOY_RUNNING) anywhere [])
                [opt_f] [] fresh))
  = ∅.
Proof.
  apply (no_connection_left_without_unlock
           (alice (gpg_reply ENVOY_RUNNING) anywhere [])
           [opt_f] [] ∅ []
           {| l_source := true; l_password := None;
              l_verb := ACTION_FISH_PRINT; l_type := AGENT_DEFAULT |});
    first [ reflexivity | discriminate ].
Defined.

(** The prompt at a terminal that is at its end. *)
Lemma read_password_restores_echo_witness :
  echo (snd (read_password (alice (gpg_reply ENVOY_RUNNING) anywhere [])
               fresh))
  = true.
Proof.
  apply (read_password_restores_echo
           (alice (gpg_reply ENVOY_RUNNING) anywhere []) fresh eq_refl).
Defined.

(** The prompt without a terminal, and at a terminal whose attributes
    cannot be set. *)
Lemma read_password_needs_terminal_witness :
  fst (read_password
         (host 0 (gpg_reply ENVOY_RUNNING) anywhere [] true false true)
         (initial ∅ ["p"; "w"; "010"]%char))
  = Exit 1
  /\ stdin (snd (read_password
                   (host 0 (gpg_reply ENVOY_RUNNING) anywhere [] true true
                      false)
                   (initial ∅ ["p"; "w"; "010"]%char)))
     = ["p"; "w"; "010"]%char.
Proof.
  destruct (read_password_needs_terminal
              (host 0 (gpg_reply ENVOY_RUNNING) anywhere [] true false true)
              (initial ∅ ["p"; "w"; "010"]%char) eq_refl) as [Hget _].
  destruct (read_password_needs_terminal
              (host 0 (gpg_reply ENVOY_RUNNING) anywhere [] true true false)
              (initial ∅ ["p"; "w"; "010"]%char) eq_refl) as [_ Hset].
  split.
  - exact (f_equal fst (Hget eq_refl)).
  - apply (Hset eq_refl eq_refl).
Defined.

(** [envoy -u] when gpg-agent is not listening. *)
Lemma unlock_needs_connection_witness :
  unlock (alice (gpg_reply ENVOY_RUNNING) nowhere [])
    (gpg_reply ENVOY_RUNNING) None fresh
  = (Exit 1,
     set_trace
       [GpgOpen "/run/user/1000/gnupg/S.gpg-agent:1234:1" None;
        Err 1 "failed to open connection to gpg-agent"] fresh).
Proof.
  apply (unlock_needs_connection
           (alice (gpg_reply ENVOY_RUNNING) nowhere [])
           (gpg_reply ENVOY_RUNNING) None fresh eq_refl eq_refl).
Defined.

(** [envoy -u] with [pw] and a newline typed. *)
Lemma unlock_presets_typed_passphrase_witness :
  fst (unlock (alice (gpg_reply ENVOY_RUNNING) anywhere [])
         (gpg_reply ENVOY_RUNNING) None
         (initial ∅ ["p"; "w"; "010"]%char))
  = Ret 0.
Proof.
  apply (unlock_presets_typed_passphrase
           (alice (gpg_reply ENVOY_RUNNING) anywhere [])
           (gpg_reply ENVOY_RUNNING)
           (initial ∅ ["p"; "w"; "010"]%char) ["p"; "w"]%char []);
    try reflexivity.
  - intros [H | [H | []]]; discriminate.
  - intros [H | [H | []]]; discriminate.
  - apply alice_accepts_all.
Defined.

(** [envoy -p] on a running gpg-agent. *)
Lemma print_writes_only_export_lines_witness :
  stdout_of (trace (snd (run (alice (gpg_reply ENVOY_RUNNING) anywhere [])
                           [opt_p] [] fresh)))
  = "export GPG_AGENT_INFO='/run/user/1000/gnupg/S.gpg-agent:1234:1'" +:+ LF
    +:+ "export SSH_AUTH_SOCK='/run/user/1000/gnupg/S.gpg-agent.ssh'" +:+ LF
    +:+ "export SSH_AGENT_PID='9000'" +:+ LF.
Proof.
  apply (print_writes_only_export_lines
           (alice (gpg_reply ENVOY_RUNNING) anywhere [])
           [opt_p] [] ∅ []
           {| l_source := true; l_password := None;
              l_verb := ACTION_SH_PRINT; l_type := AGENT_DEFAULT |}
           0 (gpg_reply ENVOY_RUNNING));
    first [ reflexivity | discriminate | left; reflexivity
          | right; reflexivity ].
Defined.
